(** * GopherDB: B-tree node layout, rebalancing and transactions

    A shallow embedding of [node.go] and [transaction.go].

    Conventions of the embedding.
    - Go [int] and [pgnum] (uint64) values are [Z]; conversions to
      [uint16] and [byte] are written out as [mod].
    - A byte slice is a [list byte]; a slice's capacity is taken to be
      its length, as for the page buffers made by [make([]byte, n)].
    - A Go run-time panic (index or slice bound out of range) is the
      outcome [Panic]; a returned [error] is the outcome [Err].
    - Nodes are values.  The functions that mutate the nodes they
      receive through pointers return the new values of those nodes;
      the slices of distinct nodes are taken not to share memory.
    - The page store, the free-list and the collection layer are
      declared outside [node.go] and [transaction.go]; what the functions
      here need of them is modelled from the specification or taken as
      a parameter, and marked as such.
    - The reader/writer lock of [DB] is not part of the model. *)

From Stdlib Require Import ZArith List Lia.
From Stdlib.Strings Require Import Byte.
From stdpp Require Import base option list gmap.
Import ListNotations.

Local Open Scope Z_scope.

(** ** Outcomes of Go calls *)

Inductive error : Type :=
  | errWriteInsideReadTxErr
  | errIO (code : Z).

Inductive result (A : Type) : Type :=
  | Ok (a : A)
  | Err (e : error)
  | Panic.

Arguments Ok {A} a.
Arguments Err {A} e.
Arguments Panic {A}.

#[global] Instance result_ret : MRet result := fun A a => Ok a.
#[global] Instance result_bind : MBind result := fun A B f m =>
  match m with
  | Ok a => f a
  | Err e => Err e
  | Panic => Panic
  end.

(** [s[i]] on a Go slice: panics outside [0, len(s)). *)
Definition index {A} (s : list A) (i : Z) : result A :=
  if (0 <=? i) && (i <? Z.of_nat (length s))
  then match s !! Z.to_nat i with Some a => Ok a | None => Panic end
  else Panic.

(** [s[lo:hi]]: panics unless [0 <= lo <= hi <= len(s)]. *)
Definition slice {A} (s : list A) (lo hi : Z) : result (list A) :=
  if (0 <=? lo) && (lo <=? hi) && (hi <=? Z.of_nat (length s))
  then Ok (take (Z.to_nat (hi - lo)) (drop (Z.to_nat lo) s))
  else Panic.

(** [s[lo:]] *)
Definition slice_from {A} (s : list A) (lo : Z) : result (list A) :=
  slice s lo (Z.of_nat (length s)).

(** [s[:hi]] *)
Definition slice_to {A} (s : list A) (hi : Z) : result (list A) :=
  slice s 0 hi.

(** [s[i] = a] *)
Definition assign {A} (s : list A) (i : Z) (a : A) : result (list A) :=
  if (0 <=? i) && (i <? Z.of_nat (length s))
  then Ok (<[Z.to_nat i := a]> s)
  else Panic.

(** ** Bytes and little-endian integers *)

Definition byte_to_Z (b : byte) : Z := Z.of_N (Byte.to_N b).

(** The Go conversion [byte(z)] of an integer: the low eight bits. *)
Definition byte_of_Z (z : Z) : byte :=
  match Byte.of_N (Z.to_N (z mod 256)) with
  | Some b => b
  | None => x00
  end.

Definition uint16 (z : Z) : Z := z mod 65536.
Definition uint64 (z : Z) : Z := z mod 18446744073709551616.

(** The bytes [byte(v), byte(v >> 8), ...] that [binary.LittleEndian]
    stores for a [w]-byte unsigned integer. *)
Fixpoint le_bytes (w : nat) (v : Z) : list byte :=
  match w with
  | O => []
  | S w' => byte_of_Z v :: le_bytes w' (Z.shiftr v 8)
  end.

(** The value [b0 | b1<<8 | b2<<16 | ...] that [binary.LittleEndian]
    reads back. *)
Fixpoint le_uint (bs : list byte) : Z :=
  match bs with
  | [] => 0
  | b :: bs' => Z.lor (byte_to_Z b) (Z.shiftl (le_uint bs') 8)
  end.

(** The buffer [buf] with the bytes [bs] stored from position [pos] on. *)
Definition write_at (buf : list byte) (pos : Z) (bs : list byte) : list byte :=
  take (Z.to_nat pos) buf ++ bs ++ drop (Z.to_nat pos + length bs)%nat buf.

(** [buf[pos] = b] *)
Definition put_byte (buf : list byte) (pos : Z) (b : byte) : result (list byte) :=
  if (0 <=? pos) && (pos <? Z.of_nat (length buf))
  then Ok (write_at buf pos [b])
  else Panic.

(** [binary.LittleEndian.PutUintW(buf[pos:], v)] for a [w]-byte integer:
    the slice expression panics unless [0 <= pos <= len(buf)], the store
    panics when fewer than [w] bytes remain. *)
Definition put_uint (w : nat) (buf : list byte) (pos : Z) (v : Z) : result (list byte) :=
  if (0 <=? pos) && (pos + Z.of_nat w <=? Z.of_nat (length buf))
  then Ok (write_at buf pos (le_bytes w v))
  else Panic.

Definition PutUint16 := put_uint 2.
Definition PutUint64 := put_uint 8.

(** [copy(buf[pos:], src)]: copies [min(len(buf) - pos, len(src))] bytes. *)
Definition copy_at (buf : list byte) (pos : Z) (src : list byte) : result (list byte) :=
  if (0 <=? pos) && (pos <=? Z.of_nat (length buf))
  then Ok (write_at buf pos (take (length buf - Z.to_nat pos)%nat src))
  else Panic.

(** [binary.LittleEndian.UintW(buf[pos:])] *)
Definition get_uint (w : nat) (buf : list byte) (pos : Z) : result Z :=
  if (0 <=? pos) && (pos + Z.of_nat w <=? Z.of_nat (length buf))
  then Ok (le_uint (take w (drop (Z.to_nat pos) buf)))
  else Panic.

Definition Uint16 := get_uint 2.
Definition Uint64 := get_uint 8.

(** ** Items and nodes *)

Definition pgnum := Z.

Record Item : Type := newItem { key : list byte; value : list byte }.

Record Node : Type := mkNode {
  pageNum : pgnum;
  items : list Item;
  childNodes : list pgnum
}.

Definition NewEmptyNode : Node := mkNode 0 [] [].

Definition NewNodeForSerialization (its : list Item) (cs : list pgnum) : Node :=
  mkNode 0 its cs.

Definition len {A} (s : list A) : Z := Z.of_nat (length s).

Definition isLast (index : Z) (parentNode : Node) : bool :=
  index =? len (items parentNode).

Definition isFirst (index : Z) : bool := index =? 0.

Definition isLeaf (n : Node) : bool := len (childNodes n) =? 0.

(** Modelled from the spec: the constant [nodeHeaderSize] is declared
    outside the files at hand; the spec gives the header three bytes
    (leaf flag and 16-bit item count). *)
Definition nodeHeaderSize : Z := 3.

(** Modelled from the spec: the constant [pageNumSize] is declared
    outside the files at hand; page numbers are stored in 8 bytes. *)
Definition pageNumSize : Z := 8.

(** ** Node size *)

Definition elementSize (n : Node) (i : Z) : result Z :=
  it ← index (items n) i;
  let size := 0 in
  let size := size + len (key it) in
  let size := size + len (value it) in
  let size := size + pageNumSize in
  Ok size.

(** The loop [for i := range n.items { size += n.elementSize(i) }]. *)
Fixpoint nodeSize_loop (n : Node) (i : Z) (k : nat) (size : Z) : result Z :=
  match k with
  | O => Ok size
  | S k' => e ← elementSize n i; nodeSize_loop n (i + 1) k' (size + e)
  end.

Definition nodeSize (n : Node) : result Z :=
  let size := 0 in
  let size := size + nodeHeaderSize in
  size ← nodeSize_loop n 0 (length (items n)) size;
  let size := size + pageNumSize in
  Ok size.

(** ** Serialization: the slotted page *)

(** One iteration of the loop of [serialize], for the item at index [i]:
    the state is the buffer and the two cursors. *)
Definition serialize_item (n : Node) (leaf : bool) (i : Z)
    (st : list byte * Z * Z) : result (list byte * Z * Z) :=
  let '(buf, leftPos, rightPos) := st in
  item ← index (items n) i;
  '(buf, leftPos) ←
    (if negb leaf then
       childNode ← index (childNodes n) i;
       buf ← PutUint64 buf leftPos (uint64 childNode);
       Ok (buf, leftPos + pageNumSize)
     else Ok (buf, leftPos));
  let klen := len (key item) in
  let vlen := len (value item) in
  let offset := rightPos - klen - vlen - 2 in
  buf ← PutUint16 buf leftPos (uint16 offset);
  let leftPos := leftPos + 2 in
  let rightPos := rightPos - vlen in
  buf ← copy_at buf rightPos (value item);
  let rightPos := rightPos - 1 in
  buf ← put_byte buf rightPos (byte_of_Z vlen);
  let rightPos := rightPos - klen in
  buf ← copy_at buf rightPos (key item);
  let rightPos := rightPos - 1 in
  buf ← put_byte buf rightPos (byte_of_Z klen);
  Ok (buf, leftPos, rightPos).

(** [for i := 0; i < len(n.items); i++], with [k] iterations left. *)
Fixpoint serialize_loop (n : Node) (leaf : bool) (i : Z) (k : nat)
    (st : list byte * Z * Z) : result (list byte * Z * Z) :=
  match k with
  | O => Ok st
  | S k' => st ← serialize_item n leaf i st; serialize_loop n leaf (i + 1) k' st
  end.

Definition serialize (n : Node) (buf : list byte) : result (list byte) :=
  let leftPos := 0 in
  let rightPos := len buf - 1 in
  let leaf := isLeaf n in
  let bitSetVar := if leaf then 1 else 0 in
  buf ← put_byte buf leftPos (byte_of_Z bitSetVar);
  let leftPos := leftPos + 1 in
  buf ← PutUint16 buf leftPos (uint16 (len (items n)));
  let leftPos := leftPos + 2 in
  '(buf, leftPos, rightPos) ←
    serialize_loop n leaf 0 (length (items n)) (buf, leftPos, rightPos);
  if negb leaf then
    lastChildNode ← index (childNodes n) (len (childNodes n) - 1);
    PutUint64 buf leftPos (uint64 lastChildNode)
  else Ok buf.

(** One iteration of the loop of [deserialize]: the state is the left
    cursor and the node under construction. *)
Definition deserialize_item (buf : list byte) (leafFlag : Z)
    (st : Z * Node) : result (Z * Node) :=
  let '(leftPos, n) := st in
  '(leftPos, n) ←
    (if leafFlag =? 0 then
       pageNum' ← Uint64 buf leftPos;
       Ok (leftPos + pageNumSize,
           mkNode (pageNum n) (items n) (childNodes n ++ [pageNum']))
     else Ok (leftPos, n));
  offset ← Uint16 buf leftPos;
  let leftPos := leftPos + 2 in
  b ← index buf offset;
  let klen := byte_to_Z b in
  let offset := uint16 (offset + 1) in
  key' ← slice buf offset (uint16 (offset + klen));
  let offset := uint16 (offset + klen) in
  b ← index buf offset;
  let vlen := byte_to_Z b in
  let offset := uint16 (offset + 1) in
  value' ← slice buf offset (uint16 (offset + vlen));
  Ok (leftPos, mkNode (pageNum n) (items n ++ [newItem key' value']) (childNodes n)).

Fixpoint deserialize_loop (buf : list byte) (leafFlag : Z) (k : nat)
    (st : Z * Node) : result (Z * Node) :=
  match k with
  | O => Ok st
  | S k' => st ← deserialize_item buf leafFlag st; deserialize_loop buf leafFlag k' st
  end.

Definition deserialize (n : Node) (buf : list byte) : result Node :=
  let leftPos := 0 in
  b ← index buf 0;
  let leafFlag := byte_to_Z b in
  hdr ← slice buf 1 3;
  itemsCount ← Uint16 hdr 0;
  let leftPos := leftPos + 3 in
  '(leftPos, n) ← deserialize_loop buf leafFlag (Z.to_nat itemsCount) (leftPos, n);
  if leafFlag =? 0 then
    pageNum' ← Uint64 buf leftPos;
    Ok (mkNode (pageNum n) (items n) (childNodes n ++ [pageNum']))
  else Ok n.

(** ** The page store *)

Record freelist : Type := mkFreelist {
  maxPage : pgnum;
  releasedPages : list pgnum
}.

(** Modelled from the spec: the free-list is declared outside the files
    at hand.  It holds the next never-allocated page number and the
    released page numbers; allocation pops from the released list if it
    is non-empty, and otherwise hands out [maxPage] and increments it. *)
Definition getNextPage (fr : freelist) : pgnum * freelist :=
  match reverse (releasedPages fr) with
  | pageID :: rest => (pageID, mkFreelist (maxPage fr) (reverse rest))
  | [] => (maxPage fr, mkFreelist (maxPage fr + 1) (releasedPages fr))
  end.

(** Modelled from the spec: release pushes onto the released list. *)
Definition releasePage (fr : freelist) (page : pgnum) : freelist :=
  mkFreelist (maxPage fr) (releasedPages fr ++ [page]).

(** The page store: the node persisted on each page, and the free-list.
    Modelled from the spec: the data access layer is declared outside
    the files at hand.  A page holds the node that was last written to
    it; reading a page that holds none is an I/O error. *)
Record dal : Type := mkDal {
  pages : gmap Z Node;
  fl : freelist;
  meta_root : pgnum
}.

Definition dal_getNode (d : dal) (p : pgnum) : result Node :=
  match pages d !! p with
  | Some n => Ok n
  | None => Err (errIO p)
  end.

(** Modelled from the spec: if the node's page number is unset, one is
    allocated; the node is then persisted on its page. *)
Definition dal_writeNode (d : dal) (n : Node) : dal * Node :=
  let '(n, fr) :=
    if pageNum n =? 0
    then let '(p, fr) := getNextPage (fl d) in (mkNode p (items n) (childNodes n), fr)
    else (n, fl d) in
  (mkDal (<[pageNum n := n]> (pages d)) fr (meta_root d), n).

Definition dal_newNode (d : dal) (its : list Item) (cs : list pgnum) : dal * Node :=
  let '(p, fr) := getNextPage (fl d) in
  (mkDal (pages d) fr (meta_root d), mkNode p its cs).

(** Modelled from the spec: deleting a node pushes its page onto the
    free-list's released list. *)
Definition dal_deleteNode (d : dal) (p : pgnum) : dal :=
  mkDal (pages d) (releasePage (fl d) p) (meta_root d).

(** Modelled from the spec: [getSplitIndex] scans the items from the left,
    accumulating sizes from the header size, and returns the first index
    whose cumulative size exceeds the minimum-fill threshold, provided
    it is not the last index; otherwise -1.  [minThreshold] is the
    integer part of [min_fill_percent * page_size]. *)
Fixpoint getSplitIndex_loop (n : Node) (minThreshold : Z) (i : Z) (k : nat)
    (size : Z) : Z :=
  match k with
  | O => -1
  | S k' =>
      match elementSize n i with
      | Ok e =>
          let size := size + e in
          if (minThreshold <? size) && (i <? len (items n) - 1) then i
          else getSplitIndex_loop n minThreshold (i + 1) k' size
      | _ => -1
      end
  end.

Definition getSplitIndex_model (minThreshold : Z) (n : Node) : Z :=
  getSplitIndex_loop n minThreshold 0 (length (items n)) nodeHeaderSize.

(** ** Node operations that go through the page store *)

Section NodeOps.

(** The split-index policy of the page store; the node algorithms only
    call it. *)
Variable getSplitIndex : Node -> Z.

Definition writeNode (d : dal) (node : Node) : dal * Node :=
  dal_writeNode d node.

Definition writeNodes (d : dal) (nodes : list Node) : dal :=
  fold_left (fun d node => fst (writeNode d node)) nodes d.

Definition getNode (d : dal) (p : pgnum) : result Node := dal_getNode d p.

Definition canSpareAnElement (n : Node) : bool :=
  let splitIndex := getSplitIndex n in
  if splitIndex =? -1 then false else true.

Definition set_items (n : Node) (its : list Item) : Node :=
  mkNode (pageNum n) its (childNodes n).

Definition set_childNodes (n : Node) (cs : list pgnum) : Node :=
  mkNode (pageNum n) (items n) cs.

Definition addItem (n : Node) (item : Item) (insertionIndex : Z) : result (Node * Z) :=
  if len (items n) =? insertionIndex then
    Ok (set_items n (items n ++ [item]), insertionIndex)
  else
    front ← slice_to (items n) (insertionIndex + 1);
    back ← slice_from (items n) insertionIndex;
    its ← assign (front ++ back) insertionIndex item;
    Ok (set_items n its, insertionIndex).

(** [split] returns the page store and the new values of the parent [n]
    and of [nodeToSplit], with the node it created. *)
Definition split (d : dal) (n nodeToSplit : Node) (nodeToSplitIndex : Z)
    : result (dal * Node * Node * Node) :=
  let splitIndex := getSplitIndex nodeToSplit in
  middleItem ← index (items nodeToSplit) splitIndex;
  '(d, newNode, nodeToSplit) ←
    (if isLeaf nodeToSplit then
       its ← slice_from (items nodeToSplit) (splitIndex + 1);
       let '(d, newNode) := dal_newNode d its [] in
       let '(d, newNode) := writeNode d newNode in
       its' ← slice_to (items nodeToSplit) splitIndex;
       Ok (d, newNode, set_items nodeToSplit its')
     else
       its ← slice_from (items nodeToSplit) (splitIndex + 1);
       cs ← slice_from (childNodes nodeToSplit) (splitIndex + 1);
       let '(d, newNode) := dal_newNode d its cs in
       let '(d, newNode) := writeNode d newNode in
       its' ← slice_to (items nodeToSplit) splitIndex;
       let nodeToSplit := set_items nodeToSplit its' in
       cs' ← slice_to (childNodes nodeToSplit) (splitIndex + 1);
       Ok (d, newNode, set_childNodes nodeToSplit cs'));
  '(n, _) ← addItem n middleItem nodeToSplitIndex;
  n ←
    (if len (childNodes n) =? nodeToSplitIndex + 1 then
       Ok (set_childNodes n (childNodes n ++ [pageNum newNode]))
     else
       front ← slice_to (childNodes n) (nodeToSplitIndex + 1);
       back ← slice_from (childNodes n) nodeToSplitIndex;
       cs ← assign (front ++ back) (nodeToSplitIndex + 1) (pageNum newNode);
       Ok (set_childNodes n cs));
  let d := writeNodes d [n; nodeToSplit] in
  Ok (d, n, nodeToSplit, newNode).

Definition removeItemFromLeaf (d : dal) (n : Node) (index' : Z) : result (dal * Node) :=
  front ← slice_to (items n) index';
  back ← slice_from (items n) (index' + 1);
  let n := set_items n (front ++ back) in
  Ok (writeNodes d [n], n).

(** The loop [for !lNode.isLeaf()] of [removeItemFromInternal]; [None]
    when the fuel runs out. *)
Fixpoint goRight (fuel : nat) (d : dal) (n lNode : Node) (affectedNodes : list Z)
    : option (result (Node * list Z)) :=
  if isLeaf lNode then Some (Ok (lNode, affectedNodes))
  else
    match fuel with
    | O => None
    | S fuel' =>
        let rIndex := len (childNodes n) - 1 in
        match (c ← index (childNodes lNode) rIndex; getNode d c) with
        | Ok lNode => goRight fuel' d n lNode (affectedNodes ++ [rIndex])
        | Err e => Some (Err e)
        | Panic => Some Panic
        end
    end.

(** [removeItemFromInternal] returns the page store, the new value of
    [n] and the affected indexes. *)
Definition removeItemFromInternal (fuel : nat) (d : dal) (n : Node) (index' : Z)
    : option (result (dal * Node * list Z)) :=
  let affectedNodes := [] in
  let affectedNodes := affectedNodes ++ [index'] in
  match (c ← index (childNodes n) index'; getNode d c) with
  | Err e => Some (Err e)
  | Panic => Some Panic
  | Ok lNode =>
      match goRight fuel d n lNode affectedNodes with
      | None => None
      | Some r => Some (
          '(lNode, affectedNodes) ← r;
          last' ← index (items lNode) (len (items lNode) - 1);
          its ← assign (items n) index' last';
          let n := set_items n its in
          its' ← slice_to (items lNode) (len (items lNode) - 1);
          let lNode := set_items lNode its' in
          let d := writeNodes d [n; lNode] in
          Ok (d, n, affectedNodes))
      end
  end.

(** [rotateRight] and [rotateLeft] return the new values of the left,
    right and parent nodes. *)
Definition rotateRight (leftNode rightNode parentNode : Node) (rightNodeIndex : Z)
    : result (Node * Node * Node) :=
  leftNodeItem ← index (items leftNode) (len (items leftNode) - 1);
  its ← slice_to (items leftNode) (len (items leftNode) - 1);
  let leftNode := set_items leftNode its in
  let pNodeIndex := rightNodeIndex - 1 in
  let pNodeIndex := if isFirst pNodeIndex then 0 else pNodeIndex in
  pNodeItem ← index (items parentNode) pNodeIndex;
  pits ← assign (items parentNode) pNodeIndex leftNodeItem;
  let parentNode := set_items parentNode pits in
  let rightNode := set_items rightNode ([pNodeItem] ++ items rightNode) in
  if negb (isLeaf leftNode) then
    child ← index (childNodes leftNode) (len (childNodes leftNode) - 1);
    cs ← slice_to (childNodes leftNode) (len (childNodes leftNode) - 1);
    let leftNode := set_childNodes leftNode cs in
    let rightNode := set_childNodes rightNode ([child] ++ childNodes rightNode) in
    Ok (leftNode, rightNode, parentNode)
  else Ok (leftNode, rightNode, parentNode).

Definition rotateLeft (leftNode rightNode parentNode : Node) (rightNodeIndex : Z)
    : result (Node * Node * Node) :=
  rightNodeItem ← index (items rightNode) 0;
  its ← slice_from (items rightNode) 1;
  let rightNode := set_items rightNode its in
  let pNodeIndex := rightNodeIndex in
  let pNodeIndex :=
    if isLast pNodeIndex parentNode then len (items parentNode) - 1 else pNodeIndex in
  pNodeItem ← index (items parentNode) pNodeIndex;
  pits ← assign (items parentNode) pNodeIndex rightNodeItem;
  let parentNode := set_items parentNode pits in
  let leftNode := set_items leftNode (items leftNode ++ [pNodeItem]) in
  if negb (isLeaf rightNode) then
    child ← index (childNodes rightNode) 0;
    cs ← slice_from (childNodes rightNode) 1;
    let rightNode := set_childNodes rightNode cs in
    let leftNode := set_childNodes leftNode (childNodes leftNode ++ [child]) in
    Ok (leftNode, rightNode, parentNode)
  else Ok (leftNode, rightNode, parentNode).

(** [merge] returns the page store and the new value of the parent [n]. *)
Definition merge (d : dal) (n bNode : Node) (bNodeIndex : Z) : result (dal * Node) :=
  c ← index (childNodes n) (bNodeIndex - 1);
  aNode ← getNode d c;
  pNodeItem ← index (items n) (bNodeIndex - 1);
  front ← slice_to (items n) (bNodeIndex - 1);
  back ← slice_from (items n) bNodeIndex;
  let n := set_items n (front ++ back) in
  let aNode := set_items aNode (items aNode ++ [pNodeItem]) in
  let aNode := set_items aNode (items aNode ++ items bNode) in
  cfront ← slice_to (childNodes n) bNodeIndex;
  cback ← slice_from (childNodes n) (bNodeIndex + 1);
  let n := set_childNodes n (cfront ++ cback) in
  let aNode :=
    if negb (isLeaf aNode)
    then set_childNodes aNode (childNodes aNode ++ childNodes bNode)
    else aNode in
  let d := writeNodes d [aNode; n] in
  let d := dal_deleteNode d (pageNum bNode) in
  Ok (d, n).

(** The last block of [rebalanceRemove]: the two merges. *)
Definition rebalance_merge (d : dal) (parent unabalancedNode : Node)
    (unbalancedNodeIndex : Z) : result (dal * Node * Node) :=
  if unbalancedNodeIndex =? 0 then
    c ← index (childNodes parent) (unbalancedNodeIndex + 1);
    rightNode ← getNode d c;
    '(d, parent) ← merge d parent rightNode (unbalancedNodeIndex + 1);
    Ok (d, parent, unabalancedNode)
  else
    '(d, parent) ← merge d parent unabalancedNode unbalancedNodeIndex;
    Ok (d, parent, unabalancedNode).

(** The second block of [rebalanceRemove] and what follows it. *)
Definition rebalance_left (d : dal) (parent unabalancedNode : Node)
    (unbalancedNodeIndex : Z) : result (dal * Node * Node) :=
  if negb (unbalancedNodeIndex =? len (childNodes parent) - 1) then
    c ← index (childNodes parent) (unbalancedNodeIndex + 1);
    rightNode ← getNode d c;
    if canSpareAnElement rightNode then
      '(unabalancedNode, rightNode, parent) ←
        rotateLeft unabalancedNode rightNode parent unbalancedNodeIndex;
      Ok (writeNodes d [unabalancedNode; parent; rightNode], parent, unabalancedNode)
    else rebalance_merge d parent unabalancedNode unbalancedNodeIndex
  else rebalance_merge d parent unabalancedNode unbalancedNodeIndex.

(** [rebalanceRemove] returns the page store and the new values of the
    parent [n] and of the unbalanced node. *)
Definition rebalanceRemove (d : dal) (n unabalancedNode : Node)
    (unbalancedNodeIndex : Z) : result (dal * Node * Node) :=
  let parent := n in
  if negb (unbalancedNodeIndex =? 0) then
    c ← index (childNodes parent) (unbalancedNodeIndex - 1);
    leftNode ← getNode d c;
    if canSpareAnElement leftNode then
      '(leftNode, unabalancedNode, parent) ←
        rotateRight leftNode unabalancedNode parent unbalancedNodeIndex;
      Ok (writeNodes d [leftNode; parent; unabalancedNode], parent, unabalancedNode)
    else rebalance_left d parent unabalancedNode unbalancedNodeIndex
  else rebalance_left d parent unabalancedNode unbalancedNodeIndex.

End NodeOps.

(** ** Transactions *)

Record tx : Type := mkTx {
  dirtyNodes : gmap Z Node;
  pagesToDelete : list pgnum;
  allocatedPageNums : list pgnum;
  write : bool;
  db : dal
}.

Definition newTx (db' : dal) (write' : bool) : tx := mkTx ∅ [] [] write' db'.

Definition set_db (t : tx) (d : dal) : tx :=
  mkTx (dirtyNodes t) (pagesToDelete t) (allocatedPageNums t) (write t) d.

(** Modelled from the spec: a collection is a name and the page number
    of the root of its B-tree; the type is declared outside the files at
    hand. *)
Record Collection : Type := mkCollection {
  name : list byte;
  root : pgnum
}.

Definition newEmptyCollection : Collection := mkCollection [] 0.

Definition getRootCollection (t : tx) : Collection :=
  let rootCollection := newEmptyCollection in
  mkCollection (name rootCollection) (meta_root (db t)).

Definition tx_newNode (t : tx) (its : list Item) (cs : list pgnum) : tx * Node :=
  let '(p, fr) := getNextPage (fl (db t)) in
  let node := mkNode p its cs in
  (mkTx (dirtyNodes t) (pagesToDelete t) (allocatedPageNums t ++ [pageNum node])
        (write t) (mkDal (pages (db t)) fr (meta_root (db t))),
   node).




Definition Rollback (t : tx) : tx :=
  if negb (write t) then t
  else
    let fr := fold_left releasePage (allocatedPageNums t) (fl (db t)) in
    mkTx ∅ [] [] (write t) (mkDal (pages (db t)) fr (meta_root (db t))).

(** The page numbers issued to [k] successive [tx.newNode] calls. *)
Fixpoint issued_pages (k : nat) (t : tx) : list pgnum :=
  match k with
  | O => []
  | S k' => let '(t, node) := tx_newNode t [] [] in pageNum node :: issued_pages k' t
  end.

Section TxOps.

(** The writes of the page store to its file, which can fail: each
    returns the store after the call and the error, if any. *)
Variable db_writeNode : dal -> Node -> dal * Node * option error.
Variable db_writeFreelist : dal -> dal * option error.

(** The parts of the collection layer that are declared outside the
    files at hand: the serialization of a collection, the write path of
    [Put], and [Remove]. *)
Variable Collection_serialize : Collection -> Item.
Variable Put_write : tx -> Collection -> list byte -> list byte -> tx * option error.
Variable Collection_Remove : tx -> Collection -> list byte -> tx * option error.

(** Modelled from the spec: [Collection.Put] is declared outside the
    files at hand; a put inside a read transaction fails with
    WriteInsideReadTx, and otherwise the insertion [Put_write] runs. *)
Definition Collection_Put (t : tx) (c : Collection) (k v : list byte)
    : tx * option error :=
  if negb (write t) then (t, Some errWriteInsideReadTxErr)
  else Put_write t c k v.

Definition _createCollection (t : tx) (collection : Collection)
    : tx * result Collection :=
  let collectionBytes := Collection_serialize collection in
  let rootCollection := getRootCollection t in
  let '(t, err) :=
    Collection_Put t rootCollection (name collection) (value collectionBytes) in
  match err with
  | Some e => (t, Err e)
  | None => (t, Ok collection)
  end.

Definition CreateCollection (t : tx) (collectionName : list byte)
    : tx * result Collection :=
  if negb (write t) then (t, Err errWriteInsideReadTxErr)
  else
    let '(d, newCollectionPage, err) := db_writeNode (db t) NewEmptyNode in
    let t := set_db t d in
    match err with
    | Some e => (t, Err e)
    | None =>
        let newCollection := newEmptyCollection in
        let newCollection := mkCollection collectionName (root newCollection) in
        let newCollection :=
          mkCollection (name newCollection) (pageNum newCollectionPage) in
        _createCollection t newCollection
    end.

Definition DeleteCollection (t : tx) (name' : list byte) : tx * option error :=
  if negb (write t) then (t, Some errWriteInsideReadTxErr)
  else
    let rootCollection := getRootCollection t in
    Collection_Remove t rootCollection name'.



End TxOps.

(** ** The calls [rebalanceRemove] ends in *)

Inductive action : Type :=
  | RotateRight (leftNode : Node)
  | RotateLeft (rightNode : Node)
  | Merge (bNode : Node) (bNodeIndex : Z).

Section Rebalance.

Variable getSplitIndex : Node -> Z.

(** The child of [parent] at position [j], read from the page store. *)
Definition sibling (d : dal) (parent : Node) (j : Z) : result Node :=
  c ← index (childNodes parent) j; getNode d c.

(** The control flow of [rebalanceRemove] up to the rotation or merge
    it calls. *)
Definition rebalance_call (d : dal) (parent unabalancedNode : Node)
    (unbalancedNodeIndex : Z) : result action :=
  let mergeCall :=
    if unbalancedNodeIndex =? 0 then
      rightNode ← sibling d parent (unbalancedNodeIndex + 1);
      Ok (Merge rightNode (unbalancedNodeIndex + 1))
    else Ok (Merge unabalancedNode unbalancedNodeIndex) in
  let leftCall :=
    if negb (unbalancedNodeIndex =? len (childNodes parent) - 1) then
      rightNode ← sibling d parent (unbalancedNodeIndex + 1);
      if canSpareAnElement getSplitIndex rightNode then Ok (RotateLeft rightNode)
      else mergeCall
    else mergeCall in
  if negb (unbalancedNodeIndex =? 0) then
    leftNode ← sibling d parent (unbalancedNodeIndex - 1);
    if canSpareAnElement getSplitIndex leftNode then Ok (RotateRight leftNode)
    else leftCall
  else leftCall.

(** The call itself, with the writes that follow it. *)
Definition run_call (d : dal) (parent unabalancedNode : Node)
    (unbalancedNodeIndex : Z) (a : action) : result (dal * Node * Node) :=
  match a with
  | RotateRight leftNode =>
      '(leftNode, unabalancedNode, parent) ←
        rotateRight leftNode unabalancedNode parent unbalancedNodeIndex;
      Ok (writeNodes d [leftNode; parent; unabalancedNode], parent, unabalancedNode)
  | RotateLeft rightNode =>
      '(unabalancedNode, rightNode, parent) ←
        rotateLeft unabalancedNode rightNode parent unbalancedNodeIndex;
      Ok (writeNodes d [unabalancedNode; parent; rightNode], parent, unabalancedNode)
  | Merge bNode bNodeIndex =>
      '(d, parent) ← merge d parent bNode bNodeIndex;
      Ok (d, parent, unabalancedNode)
  end.


End Rebalance.

(** ** The in-order predecessor in the words of the specification *)

(** Descend repeatedly into the last child of the node reached. *)
Fixpoint last_child_leaf (fuel : nat) (d : dal) (node : Node) : option (result Node) :=
  if isLeaf node then Some (Ok node)
  else
    match fuel with
    | O => None
    | S fuel' =>
        match (c ← index (childNodes node) (len (childNodes node) - 1); dal_getNode d c) with
        | Ok node' => last_child_leaf fuel' d node'
        | Err e => Some (Err e)
        | Panic => Some Panic
        end
    end.

(** The leaf that holds the in-order predecessor of [n.items[index]]. *)
Definition predecessor_leaf (fuel : nat) (d : dal) (n : Node) (index' : Z)
    : option (result Node) :=
  match (c ← index (childNodes n) index'; dal_getNode d c) with
  | Ok node => last_child_leaf fuel d node
  | Err e => Some (Err e)
  | Panic => Some Panic
  end.

(** ** Search *)

(** [bytes.Compare]: the lexicographic order on byte strings, as -1, 0
    or 1. *)
Fixpoint Compare (a b : list byte) : Z :=
  match a, b with
  | [], [] => 0
  | [], _ :: _ => -1
  | _ :: _, [] => 1
  | x :: a', y :: b' =>
      if byte_to_Z x <? byte_to_Z y then -1
      else if byte_to_Z y <? byte_to_Z x then 1
      else Compare a' b'
  end.

(** The loop [for i, existingItem := range n.items] of [findKeyInNode],
    over the items from index [i] on; running off the end returns
    [len(n.items)]. *)
Fixpoint findKeyInNode_loop (its : list Item) (key' : list byte) (i : Z) : bool * Z :=
  match its with
  | [] => (false, i)
  | existingItem :: rest =>
      let res := Compare (key existingItem) key' in
      if res =? 0 then (true, i)
      else if res =? 1 then (false, i)
      else findKeyInNode_loop rest key' (i + 1)
  end.

Definition findKeyInNode (n : Node) (key' : list byte) : bool * Z :=
  findKeyInNode_loop (items n) key' 0.

(** [findKeyHelper] returns the index, the node (or nil) and the
    ancestor indexes it was given, extended; [None] when the fuel runs
    out. *)
Fixpoint findKeyHelper (fuel : nat) (d : dal) (node : Node) (key' : list byte)
    (exact : bool) (ancestorsIndexes : list Z)
    : option (result (Z * option Node * list Z)) :=
  let '(wasFound, index') := findKeyInNode node key' in
  if wasFound then Some (Ok (index', Some node, ancestorsIndexes))
  else if isLeaf node then
    if exact then Some (Ok (-1, None, ancestorsIndexes))
    else Some (Ok (index', Some node, ancestorsIndexes))
  else
    match fuel with
    | O => None
    | S fuel' =>
        let ancestorsIndexes := ancestorsIndexes ++ [index'] in
        match (c ← index (childNodes node) index'; getNode d c) with
        | Ok nextChild => findKeyHelper fuel' d nextChild key' exact ancestorsIndexes
        | Err e => Some (Err e)
        | Panic => Some Panic
        end
    end.

Definition findKey (fuel : nat) (d : dal) (n : Node) (key' : list byte) (exact : bool)
    : option (result (Z * option Node * list Z)) :=
  let ancestorsIndexes := [0] in
  findKeyHelper fuel d n key' exact ancestorsIndexes.

(** The node reached from [node] by following the child indexes
    [path]. *)
Fixpoint walk (d : dal) (node : Node) (path : list Z) : result Node :=
  match path with
  | [] => Ok node
  | i :: rest =>
      c ← index (childNodes node) i;
      child ← getNode d c;
      walk d child rest
  end.

(** Items in strictly ascending key order. *)
Definition key_lt (a b : Item) : Prop := Compare (key a) (key b) = -1.

Fixpoint ascending (its : list Item) : Prop :=
  match its with
  | [] => True
  | it :: rest => Forall (key_lt it) rest /\ ascending rest
  end.

(** Every non-leaf node on the path from [node] down through the child
    at index [k - 1] has [k] children (as far as the fuel reaches and
    the store can be read). *)
Fixpoint rightmost_arity (fuel : nat) (d : dal) (k : Z) (node : Node) : Prop :=
  if isLeaf node then True
  else
    match fuel with
    | O => True
    | S fuel' =>
        len (childNodes node) = k /\
        match (c ← index (childNodes node) (k - 1); dal_getNode d c) with
        | Ok node' => rightmost_arity fuel' d k node'
        | _ => True
        end
    end.

(** The node [m] with the items and child pointers of [n0] in front of
    its own, on the page of [n0]. *)
Definition prepend (n0 m : Node) : Node :=
  mkNode (pageNum n0) (items n0 ++ items m) (childNodes n0 ++ childNodes m).

(** Every path from [node] down to a leaf has at most [h] edges, as far
    as the store can be read. *)
Fixpoint depth_le (h : nat) (d : dal) (node : Node) : Prop :=
  isLeaf node = true \/
  match h with
  | O => False
  | S h' =>
      forall (c : pgnum) (child : Node),
        c ∈ childNodes node -> pages d !! c = Some child -> depth_le h' d child
  end.

(** ** Reference formulas and sample inputs *)

(** The sum over the items of key length, value length and a fixed
    per-item overhead. *)
Definition items_size (overhead : Z) (its : list Item) : Z :=
  foldr (fun it acc => len (key it) + len (value it) + overhead + acc) 0 its.

(** The size formula in the words of the specification: 3 header bytes,
    per item the key and value lengths, 2 offset bytes and 8
    child-pointer bytes, and 8 bytes for the trailing child pointer. *)
Definition node_size_spec (n : Node) : Z :=
  3 + items_size (2 + 8) (items n) + 8.

Definition item_ab : Item := newItem ["a"%byte] ["b"%byte].

Definition node_one_item : Node := mkNode 2 [item_ab] [].

(** ** The slotted layout, for stating the round trip *)

(** The bytes of a cell: key length, key, value length, value. *)
Definition cell_bytes (it : Item) : list byte :=
  byte_of_Z (len (key it)) :: key it ++ byte_of_Z (len (value it)) :: value it.

(** The bytes of a slot on the left: the child page number of a
    non-leaf, then the offset of the cell. *)
Definition slot_bytes (leaf : bool) (child : pgnum) (offset : Z) : list byte :=
  (if leaf then [] else le_bytes 8 (uint64 child)) ++ le_bytes 2 (uint16 offset).

Definition slot_size (leaf : bool) : Z := if leaf then 2 else 10.

(** The bytes the slots and cells of a node take: the header, per item a
    2-byte offset, two length bytes, the key and the value, and for a
    non-leaf 8 bytes per child pointer. *)
Definition slotted_size (n : Node) : Z :=
  3 + items_size (2 + 2) (items n)
    + (if isLeaf n then 0 else 8 * (len (items n) + 1)).

(** The bytes of [buf] from [pos] on, [k] of them. *)
Definition bytes_at (buf : list byte) (pos : Z) (k : nat) : list byte :=
  take k (drop (Z.to_nat pos) buf).

(** [buf] holds, from the cursors [l] and [r] on, the slots and cells of
    the items [its] with the child page numbers [cs]. *)
Fixpoint encoded (buf : list byte) (leaf : bool) (l r : Z)
    (its : list Item) (cs : list pgnum) : Prop :=
  match its with
  | [] => True
  | it :: its' =>
      let off := r - len (key it) - len (value it) - 2 in
      bytes_at buf l (Z.to_nat (slot_size leaf)) = slot_bytes leaf (default 0 (head cs)) off /\
      bytes_at buf off (length (cell_bytes it)) = cell_bytes it /\
      encoded buf leaf (l + slot_size leaf) off its' (tail cs)
  end.

Definition key_value_fit (it : Item) : Prop :=
  len (key it) <= 255 /\ len (value it) <= 255.

Definition is_pgnum (c : Z) : Prop := 0 <= c < 18446744073709551616.

(** A non-leaf node with eight items and nine children whose slots and
    cells take exactly 4096 bytes. *)
Definition big_item (k : byte) (vlen : nat) : Item :=
  newItem (repeat k 255) (repeat k vlen).

Definition page_filling_node : Node :=
  mkNode 2
    [big_item "a"%byte 255; big_item "b"%byte 255; big_item "c"%byte 255;
     big_item "d"%byte 255; big_item "e"%byte 255; big_item "f"%byte 255;
     big_item "g"%byte 255; big_item "h"%byte 164]
    [3; 4; 5; 6; 7; 8; 9; 10; 11].

Definition empty_page : list byte := repeat x00 4096.

(** [buf'] differs from [buf] at most at the positions in [lo, hi). *)
Definition same_outside (lo hi : Z) (buf buf' : list byte) : Prop :=
  length buf' = length buf /\
  forall i : nat, Z.of_nat i < lo \/ hi <= Z.of_nat i -> buf' !! i = buf !! i.

(** A buffer longer than a 16-bit offset can address. *)
Definition long_page : list byte := repeat x00 (Z.to_nat 65541).

(** A small tree: the root on page 2 with two internal children, on
    pages 3 (three leaves below it) and 4 (two leaves below it). *)
Definition item1 (k : byte) : Item := newItem [k] [k].

Definition sample_root : Node := mkNode 2 [item1 "5"%byte] [3; 4].
Definition sample_left : Node :=
  mkNode 3 [item1 "1"%byte; item1 "3"%byte] [5; 6; 7].
Definition sample_right : Node := mkNode 4 [item1 "7"%byte] [8; 9].

Definition sample_pages : gmap Z Node :=
  <[2 := sample_root]> (<[3 := sample_left]> (<[4 := sample_right]> (
  <[5 := mkNode 5 [item1 "0"%byte] []]> (<[6 := mkNode 6 [item1 "2"%byte] []]> (
  <[7 := mkNode 7 [item1 "4"%byte] []]> (<[8 := mkNode 8 [item1 "6"%byte] []]> (
  <[9 := mkNode 9 [item1 "8"%byte] []]> ∅))))))).

Definition sample_dal : dal := mkDal sample_pages (mkFreelist 10 []) 2.

(** A leaf with three items, to be split. *)
Definition sample_full_leaf : Node :=
  mkNode 6 [item1 "a"%byte; item1 "b"%byte; item1 "c"%byte] [].

(** A split-index policy under which no node can spare an element. *)
Definition never_spare : Node -> Z := fun _ => -1.

(** Page-store writes that succeed, and writes that fail. *)
Definition ok_writeNode (d : dal) (n : Node) : dal * Node * option error :=
  let '(d, n) := dal_writeNode d n in (d, n, None).




(** A write transaction that allocated the fresh pages 10, 11 and 12
    and wrote one of them. *)
Definition sample_alloc_tx : tx :=
  mkTx {[ 10 := mkNode 10 [item1 "9"%byte] [] ]} [] [10; 11; 12] true
       (mkDal sample_pages (mkFreelist 13 []) 2).

(** Stand-ins for the collection layer. *)
Definition sample_serialize (c : Collection) : Item :=
  newItem (name c) (le_bytes 8 (root c)).

Definition sample_Put_write (t : tx) (c : Collection) (k v : list byte)
    : tx * option error := (t, None).

Definition sample_Remove (t : tx) (c : Collection) (k : list byte)
    : tx * option error := (t, None).

(** * Properties *)

(** ** Slices and indexes *)

Lemma index_Ok {A} (s : list A) (i : Z) (a : A) :
  0 <= i -> s !! Z.to_nat i = Some a -> index s i = Ok a.
Proof.
  intros Hi Hl. unfold index.
  apply lookup_lt_Some in Hl as Hlt.
  replace (0 <=? i) with true by (symmetry; apply Z.leb_le; lia).
  replace (i <? Z.of_nat (length s)) with true by (symmetry; apply Z.ltb_lt; lia).
  simpl. now rewrite Hl.
Qed.

Lemma index_inv {A} (s : list A) (i : Z) (a : A) :
  index s i = Ok a -> 0 <= i < len s /\ s !! Z.to_nat i = Some a.
Proof.
  unfold index, len.
  destruct (0 <=? i) eqn:H0; simpl; [|discriminate].
  destruct (i <? Z.of_nat (length s)) eqn:H1; simpl; [|discriminate].
  apply Z.leb_le in H0. apply Z.ltb_lt in H1.
  destruct (s !! Z.to_nat i) eqn:E; [|discriminate].
  intros [= ->]. auto.
Qed.

Lemma slice_Ok {A} (s : list A) (lo hi : Z) :
  0 <= lo <= hi -> hi <= len s ->
  slice s lo hi = Ok (take (Z.to_nat (hi - lo)) (drop (Z.to_nat lo) s)).
Proof.
  intros [H0 H1] H2. unfold slice, len in *.
  replace (0 <=? lo) with true by (symmetry; apply Z.leb_le; lia).
  replace (lo <=? hi) with true by (symmetry; apply Z.leb_le; lia).
  replace (hi <=? Z.of_nat (length s)) with true by (symmetry; apply Z.leb_le; lia).
  reflexivity.
Qed.

Lemma slice_from_Ok {A} (s : list A) (lo : Z) :
  0 <= lo <= len s -> slice_from s lo = Ok (drop (Z.to_nat lo) s).
Proof.
  intros H. unfold slice_from. rewrite slice_Ok by (unfold len in *; lia).
  f_equal. apply take_ge. rewrite length_drop. unfold len in *. lia.
Qed.

Lemma slice_to_Ok {A} (s : list A) (hi : Z) :
  0 <= hi <= len s -> slice_to s hi = Ok (take (Z.to_nat hi) s).
Proof.
  intros H. unfold slice_to. rewrite slice_Ok by lia.
  now rewrite Z.sub_0_r.
Qed.

Lemma assign_Ok {A} (s : list A) (i : Z) (a : A) :
  0 <= i < len s -> assign s i a = Ok (<[Z.to_nat i := a]> s).
Proof.
  intros [H0 H1]. unfold assign, len in *.
  replace (0 <=? i) with true by (symmetry; apply Z.leb_le; lia).
  replace (i <? Z.of_nat (length s)) with true by (symmetry; apply Z.ltb_lt; lia).
  reflexivity.
Qed.

(** ** Node size *)

Lemma nodeSize_loop_sum (n : Node) (k : nat) : forall (i : Z) (size : Z),
  0 <= i -> (Z.to_nat i + k)%nat = length (items n) ->
  nodeSize_loop n i k size
  = Ok (size + items_size pageNumSize (drop (Z.to_nat i) (items n))).
Proof.
  induction k as [|k IH]; intros i size Hi Hlen; simpl.
  - rewrite drop_ge by lia. simpl. f_equal. lia.
  - destruct (lookup_lt_is_Some_2 (items n) (Z.to_nat i)) as [it Hit]; [lia|].
    unfold elementSize. rewrite (index_Ok _ _ _ Hi Hit). simpl.
    rewrite IH by lia.
    rewrite (drop_S _ _ _ Hit).
    replace (Z.to_nat (i + 1)) with (S (Z.to_nat i)) by lia.
    simpl. f_equal. lia.
Qed.

(** C2, as the code has it: [nodeSize] is the header size, plus for each
    item the key length, the value length and 8 child-pointer bytes (no
    offset bytes), plus 8 bytes for the trailing child pointer. *)
Theorem nodeSize_formula (n : Node) :
  nodeSize n = Ok (nodeHeaderSize + items_size 8 (items n) + 8).
Proof.
  unfold nodeSize. rewrite nodeSize_loop_sum by (simpl; lia).
  reflexivity.
Qed.

(** C2, as stated, fails on a node with one item: the code counts no
    offset bytes. *)
Lemma nodeSize_not_spec_formula :
  (nodeSize node_one_item = Ok 21) /\ (node_size_spec node_one_item = 23) /\
  (nodeSize node_one_item ≠ Ok (node_size_spec node_one_item)).
Proof. split; [reflexivity | split; [reflexivity | discriminate]]. Qed.

(** ** Rotation *)

Lemma index_last {A} (s : list A) (x : A) :
  last s = Some x -> index s (len s - 1) = Ok x.
Proof.
  intros Hl. rewrite last_lookup in Hl.
  apply lookup_lt_Some in Hl as Hlt.
  apply index_Ok; unfold len; [lia|].
  replace (Z.to_nat (Z.of_nat (length s) - 1)) with (pred (length s)) by lia.
  exact Hl.
Qed.

Lemma slice_to_last {A} (s : list A) :
  s <> [] -> slice_to s (len s - 1) = Ok (take (length s - 1) s).
Proof.
  intros Hs. destruct s as [|a s]; [congruence|].
  rewrite slice_to_Ok by (unfold len; simpl; lia).
  do 2 f_equal. unfold len. lia.
Qed.

Lemma isLeaf_nil (n : Node) : isLeaf n = true <-> childNodes n = [].
Proof.
  unfold isLeaf, len. rewrite Z.eqb_eq.
  destruct (childNodes n); simpl; split; intros; try congruence; lia.
Qed.

(** C7: [rotateRight] pops the last item [x] of the left node, replaces
    the parent's separator at position [rightNodeIndex - 1] (clamped to
    0) by [x], puts the old separator in front of the right node's items,
    and moves the left node's last child pointer, if it has one, to the
    front of the right node's child pointers; nothing else changes. *)
Theorem rotateRight_spec (leftNode rightNode parentNode : Node)
    (rightNodeIndex : Z) (x sep : Item) :
  1 <= rightNodeIndex ->
  last (items leftNode) = Some x ->
  items parentNode !! Z.to_nat (Z.max 0 (rightNodeIndex - 1)) = Some sep ->
  rotateRight leftNode rightNode parentNode rightNodeIndex
  = Ok (mkNode (pageNum leftNode)
               (take (length (items leftNode) - 1) (items leftNode))
               (take (length (childNodes leftNode) - 1) (childNodes leftNode)),
        mkNode (pageNum rightNode)
               (sep :: items rightNode)
               (match last (childNodes leftNode) with
                | Some child => child :: childNodes rightNode
                | None => childNodes rightNode
                end),
        mkNode (pageNum parentNode)
               (<[Z.to_nat (Z.max 0 (rightNodeIndex - 1)) := x]> (items parentNode))
               (childNodes parentNode)).
Proof.
  intros Hri Hx Hsep.
  assert (Hne : items leftNode <> []) by (intros E; rewrite E in Hx; discriminate).
  rewrite Z.max_r in * by lia.
  apply lookup_lt_Some in Hsep as Hlt.
  unfold rotateRight.
  rewrite (index_last _ _ Hx). simpl.
  rewrite (slice_to_last _ Hne). simpl.
  assert (Hidx : (if isFirst (rightNodeIndex - 1) then 0 else rightNodeIndex - 1)
                 = rightNodeIndex - 1).
  { unfold isFirst. destruct (rightNodeIndex - 1 =? 0) eqn:E; [|reflexivity].
    apply Z.eqb_eq in E. lia. }
  rewrite Hidx.
  assert (H0 : 0 <= rightNodeIndex - 1) by lia.
  rewrite (index_Ok _ _ _ H0 Hsep). simpl.
  rewrite assign_Ok by (unfold len; lia). simpl.
  destruct (isLeaf leftNode) eqn:Hleaf; unfold isLeaf in *; simpl in *; rewrite Hleaf; simpl.
  - apply Z.eqb_eq in Hleaf. unfold len in Hleaf.
    destruct (childNodes leftNode) eqn:Hcs; simpl in *; [|lia].
    unfold set_items, set_childNodes. simpl. rewrite Hcs. reflexivity.
  - apply Z.eqb_neq in Hleaf. unfold len in Hleaf.
    assert (Hcne : childNodes leftNode <> []).
    { intros E. rewrite E in Hleaf. simpl in Hleaf. lia. }
    destruct (last (childNodes leftNode)) as [child|] eqn:Hlast.
    + rewrite (index_last _ _ Hlast). simpl.
      rewrite (slice_to_last _ Hcne). simpl. reflexivity.
    + apply last_None in Hlast. congruence.
Qed.

(** C7 at a concrete rotation: left leaf with two items, parent with one
    separator. *)
Lemma rotateRight_spec_witness :
  rotateRight (mkNode 5 [item1 "0"%byte; item1 "1"%byte] [])
              (mkNode 6 [] [])
              (mkNode 3 [item1 "2"%byte] [5; 6]) 1
  = Ok (mkNode 5 [item1 "0"%byte] [],
        mkNode 6 [item1 "2"%byte] [],
        mkNode 3 [item1 "1"%byte] [5; 6]).
Proof.
  apply (rotateRight_spec (mkNode 5 [item1 "0"%byte; item1 "1"%byte] [])
           (mkNode 6 [] []) (mkNode 3 [item1 "2"%byte] [5; 6]) 1
           (item1 "1"%byte) (item1 "2"%byte)).
  - lia.
  - reflexivity.
  - reflexivity.
Defined.

(** ** Split *)

Lemma insert_shifted {A} (s : list A) (i : nat) (x : A) :
  (i < length s)%nat ->
  <[i := x]> (take (S i) s ++ drop i s) = take i s ++ x :: drop i s.
Proof.
  intros Hi.
  destruct (lookup_lt_is_Some_2 s i Hi) as [y Hy].
  rewrite (take_S_r _ _ _ Hy), <- app_assoc. simpl.
  rewrite insert_app_r_alt by (rewrite length_take; lia).
  rewrite length_take. replace (i - i `min` length s)%nat with O by lia.
  reflexivity.
Qed.

Lemma insert_after_shifted {A} (s : list A) (i : nat) (x : A) :
  (i < length s)%nat ->
  <[S i := x]> (take (S i) s ++ drop i s) = take (S i) s ++ x :: drop (S i) s.
Proof.
  intros Hi.
  destruct (lookup_lt_is_Some_2 s i Hi) as [y Hy].
  rewrite (drop_S _ _ _ Hy).
  rewrite insert_app_r_alt by (rewrite length_take; lia).
  rewrite length_take. replace (S i - S i `min` length s)%nat with O by lia.
  reflexivity.
Qed.

Lemma addItem_inserts (n : Node) (item : Item) (i : Z) :
  0 <= i <= len (items n) ->
  addItem n item i
  = Ok (set_items n (take (Z.to_nat i) (items n) ++ item :: drop (Z.to_nat i) (items n)), i).
Proof.
  intros Hi. unfold addItem. unfold len in *.
  destruct (Z.of_nat (length (items n)) =? i) eqn:E.
  - apply Z.eqb_eq in E.
    rewrite take_ge, drop_ge by lia. reflexivity.
  - apply Z.eqb_neq in E.
    rewrite slice_to_Ok by (unfold len; lia). simpl.
    rewrite slice_from_Ok by (unfold len; lia). simpl.
    rewrite assign_Ok.
    + simpl. replace (Z.to_nat (i + 1)) with (S (Z.to_nat i)) by lia.
      rewrite insert_shifted by lia. reflexivity.
    + unfold len. rewrite length_app, length_take, length_drop. lia.
Qed.

Lemma insert_child_after (m : Node) (cs : list pgnum) (i : Z) (p : pgnum) :
  0 <= i -> i + 1 <= len cs ->
  (if len cs =? i + 1 then Ok (set_childNodes m (cs ++ [p]))
   else
     front ← slice_to cs (i + 1);
     back ← slice_from cs i;
     cs' ← assign (front ++ back) (i + 1) p;
     Ok (set_childNodes m cs'))
  = Ok (set_childNodes m (take (Z.to_nat (i + 1)) cs ++ p :: drop (Z.to_nat (i + 1)) cs)).
Proof.
  intros H0 Hi. unfold len in *.
  destruct (Z.of_nat (length cs) =? i + 1) eqn:E.
  - apply Z.eqb_eq in E.
    rewrite take_ge, drop_ge by lia. reflexivity.
  - apply Z.eqb_neq in E.
    rewrite slice_to_Ok by (unfold len; lia). simpl.
    rewrite slice_from_Ok by (unfold len; lia). simpl.
    rewrite assign_Ok.
    + replace (Z.to_nat (i + 1)) with (S (Z.to_nat i)) by lia.
      rewrite insert_after_shifted by lia. reflexivity.
    + unfold len. rewrite length_app, length_take, length_drop. lia.
Qed.

Lemma dal_newNode_node (d d' : dal) (its : list Item) (cs : list pgnum) (nn : Node) :
  dal_newNode d its cs = (d', nn) -> items nn = its /\ childNodes nn = cs.
Proof.
  unfold dal_newNode. destruct (getNextPage (fl d)) as [p fr].
  intros [= _ <-]. auto.
Qed.

Lemma writeNode_node (d d' : dal) (n n' : Node) :
  writeNode d n = (d', n') -> items n' = items n /\ childNodes n' = childNodes n.
Proof.
  unfold writeNode, dal_writeNode.
  destruct (pageNum n =? 0).
  - destruct (getNextPage (fl d)) as [p fr]. intros [= _ <-]. auto.
  - intros [= _ <-]. auto.
Qed.

(** C5: [split] makes a new node of the child's items after the split
    index [s] and of its child pointers after [s] (a leaf has none),
    truncates the child to the items before [s] and the child pointers
    up to [s], and inserts the middle item into the parent at
    [childIndex] and the new node's page number into the parent's child
    pointers at [childIndex + 1]. *)
Theorem split_spec (getSplitIndex : Node -> Z) (d : dal) (n child : Node)
    (childIndex s : Z) (middle : Item) :
  getSplitIndex child = s ->
  0 <= s ->
  items child !! Z.to_nat s = Some middle ->
  (isLeaf child = false -> s + 1 <= len (childNodes child)) ->
  0 <= childIndex <= len (items n) ->
  childIndex + 1 <= len (childNodes n) ->
  exists (d' : dal) (newNode : Node),
    split getSplitIndex d n child childIndex
    = Ok (d',
          mkNode (pageNum n)
                 (take (Z.to_nat childIndex) (items n)
                    ++ middle :: drop (Z.to_nat childIndex) (items n))
                 (take (Z.to_nat (childIndex + 1)) (childNodes n)
                    ++ pageNum newNode :: drop (Z.to_nat (childIndex + 1)) (childNodes n)),
          mkNode (pageNum child)
                 (take (Z.to_nat s) (items child))
                 (take (Z.to_nat (s + 1)) (childNodes child)),
          newNode) /\
    items newNode = drop (Z.to_nat (s + 1)) (items child) /\
    childNodes newNode = drop (Z.to_nat (s + 1)) (childNodes child).
Proof.
  intros Hs H0 Hmid Hcs Hci Hcc.
  apply lookup_lt_Some in Hmid as Hlt.
  unfold split. rewrite Hs.
  rewrite (index_Ok _ _ _ H0 Hmid). simpl.
  rewrite slice_from_Ok by (unfold len; lia). simpl.
  destruct (isLeaf child) eqn:Hleaf.
  - apply isLeaf_nil in Hleaf as Hnil.
    destruct (dal_newNode d (drop (Z.to_nat (s + 1)) (items child)) [])
      as [d1 n1] eqn:E1.
    destruct (writeNode d1 n1) as [d2 n2] eqn:E2.
    apply dal_newNode_node in E1 as [Hi1 Hc1].
    apply writeNode_node in E2 as [Hi2 Hc2].
    rewrite slice_to_Ok by (unfold len; lia). simpl.
    rewrite addItem_inserts by exact Hci. simpl.
    rewrite insert_child_after by (try lia; exact Hcc).
    simpl. eexists _, n2. split; [|split].
    + unfold set_items, set_childNodes. simpl. rewrite Hnil. simpl.
      rewrite take_nil. reflexivity.
    + congruence.
    + rewrite Hnil, drop_nil. congruence.
  - specialize (Hcs eq_refl).
    rewrite slice_from_Ok by (unfold len in *; lia). simpl.
    destruct (dal_newNode d (drop (Z.to_nat (s + 1)) (items child))
                (drop (Z.to_nat (s + 1)) (childNodes child)))
      as [d1 n1] eqn:E1.
    destruct (writeNode d1 n1) as [d2 n2] eqn:E2.
    apply dal_newNode_node in E1 as [Hi1 Hc1].
    apply writeNode_node in E2 as [Hi2 Hc2].
    rewrite (slice_to_Ok (items child)) by (unfold len; lia). simpl.
    rewrite (slice_to_Ok (childNodes child)) by (unfold len in *; lia). simpl.
    rewrite addItem_inserts by exact Hci. simpl.
    rewrite insert_child_after by (try lia; exact Hcc).
    simpl. eexists _, n2. split; [|split].
    + reflexivity.
    + congruence.
    + congruence.
Qed.

(** C5 on a leaf with three items below the sample node on page 3, with
    the split index 1 that the page store computes for the threshold
    20. *)
Lemma split_spec_witness :
  exists (d' : dal) (newNode : Node),
    split (getSplitIndex_model 20) sample_dal sample_left sample_full_leaf 1
    = Ok (d',
          mkNode 3 [item1 "1"%byte; item1 "b"%byte; item1 "3"%byte]
                 ([5; 6] ++ pageNum newNode :: [7]),
          mkNode 6 [item1 "a"%byte] [],
          newNode) /\
    items newNode = [item1 "c"%byte] /\
    childNodes newNode = [].
Proof.
  apply (split_spec (getSplitIndex_model 20) sample_dal sample_left
           sample_full_leaf 1 1 (item1 "b"%byte)).
  - reflexivity.
  - lia.
  - reflexivity.
  - discriminate.
  - unfold len; simpl; lia.
  - unfold len; simpl; lia.
Defined.

(** ** Rebalancing after a removal *)

Ltac case_result e :=
  let r := fresh "r" in
  destruct e as [r| |] eqn:?; simpl; try reflexivity.

Lemma rebalance_merge_calls (d : dal) (p u : Node) (i : Z) :
  rebalance_merge d p u i
  = a ← (if i =? 0 then rightNode ← sibling d p (i + 1); Ok (Merge rightNode (i + 1))
         else Ok (Merge u i));
    run_call d p u i a.
Proof.
  unfold rebalance_merge, sibling.
  destruct (i =? 0); simpl; [|reflexivity].
  case_result (index (childNodes p) (i + 1)).
  case_result (getNode d r).
Qed.

Lemma rebalanceRemove_calls (g : Node -> Z) (d : dal) (p u : Node) (i : Z) :
  rebalanceRemove g d p u i = a ← rebalance_call g d p u i; run_call d p u i a.
Proof.
  unfold rebalanceRemove, rebalance_call, rebalance_left.
  rewrite rebalance_merge_calls. unfold sibling.
  destruct (i =? 0) eqn:E0; simpl.
  - destruct (i =? len (childNodes p) - 1); simpl; [reflexivity|].
    case_result (index (childNodes p) (i + 1)).
    case_result (getNode d r).
    destruct (canSpareAnElement g r0); simpl; reflexivity.
  - case_result (index (childNodes p) (i - 1)).
    case_result (getNode d r).
    destruct (canSpareAnElement g r0); simpl; [reflexivity|].
    destruct (i =? len (childNodes p) - 1); simpl; [reflexivity|].
    case_result (index (childNodes p) (i + 1)).
    case_result (getNode d r1).
    destruct (canSpareAnElement g r2); simpl; reflexivity.
Qed.



Lemma index_lookup_lt {A} (s : list A) (i : Z) :
  0 <= i < len s -> exists a, index s i = Ok a.
Proof.
  intros [H0 H1]. unfold len in H1.
  destruct (lookup_lt_is_Some_2 s (Z.to_nat i)) as [a Ha]; [lia|].
  exists a. now apply index_Ok.
Qed.

Lemma sibling_Ok_bounds (d : dal) (p n : Node) (j : Z) :
  sibling d p j = Ok n -> 0 <= j < len (childNodes p).
Proof.
  unfold sibling. destruct (index (childNodes p) j) as [c| |] eqn:E; try discriminate.
  intros _. now apply index_inv in E.
Qed.

Lemma merge_no_panic (d : dal) (p b : Node) (k : Z) :
  1 <= k <= len (items p) ->
  len (childNodes p) = len (items p) + 1 ->
  merge d p b k <> Panic.
Proof.
  intros Hk Hinv. unfold merge.
  destruct (index_lookup_lt (childNodes p) (k - 1)) as [c ->]; [lia|]. simpl.
  unfold getNode, dal_getNode. destruct (pages d !! c); simpl; [|discriminate].
  destruct (index_lookup_lt (items p) (k - 1)) as [it ->]; [lia|]. simpl.
  rewrite slice_to_Ok by lia. simpl.
  rewrite slice_from_Ok by lia. simpl.
  rewrite slice_to_Ok by lia. simpl.
  rewrite slice_from_Ok by lia. simpl.
  discriminate.
Qed.

(** C10: when [rebalanceRemove] calls [merge], the right-node index it
    passes is at least 1, so position [index - 1] is never negative; for
    a parent with one more child pointer than items, that position is
    within the parent's items and child pointers, and [merge] does not
    panic. *)
Theorem rebalanceRemove_merge_index (g : Node -> Z) (d : dal)
    (parent node bNode : Node) (i bNodeIndex : Z) :
  rebalance_call g d parent node i = Ok (Merge bNode bNodeIndex) ->
  rebalanceRemove g d parent node i
    = ('(d', parent') ← merge d parent bNode bNodeIndex; Ok (d', parent', node)) /\
  1 <= bNodeIndex /\
  (bNodeIndex = i + 1 /\ i = 0 \/ bNodeIndex = i /\ 1 <= i) /\
  (len (childNodes parent) = len (items parent) + 1 ->
   0 <= bNodeIndex - 1 < len (items parent) /\
   0 <= bNodeIndex - 1 < len (childNodes parent) /\
   merge d parent bNode bNodeIndex <> Panic).
Proof.
  intros Hcall.
  split; [rewrite rebalanceRemove_calls, Hcall; reflexivity|].
  assert (Hk : (bNodeIndex = i + 1 /\ i = 0 \/ bNodeIndex = i /\ 1 <= i) /\
               bNodeIndex < len (childNodes parent)).
  { unfold rebalance_call in Hcall.
    destruct (Z.eq_dec i 0) as [E0|E0].
    - assert (B0 : (i =? 0) = true) by (apply Z.eqb_eq; lia).
      rewrite B0 in Hcall. cbn [negb] in Hcall.
      assert (Hm : forall r, (rightNode ← sibling d parent (i + 1);
                              Ok (Merge rightNode (i + 1))) = r ->
                             r = Ok (Merge bNode bNodeIndex) ->
                             bNodeIndex = i + 1 /\ i + 1 < len (childNodes parent)).
      { intros r <-. destruct (sibling d parent (i + 1)) as [rn| |] eqn:Es;
          simpl; try discriminate.
        intros [= _ <-]. apply sibling_Ok_bounds in Es. lia. }
      destruct (negb (i =? len (childNodes parent) - 1)).
      + destruct (sibling d parent (i + 1)) as [rn| |] eqn:Es;
          simpl in Hcall; try discriminate.
        destruct (canSpareAnElement g rn); [discriminate|].
        injection Hcall as _ <-. apply sibling_Ok_bounds in Es. lia.
      + destruct (Hm _ eq_refl Hcall). lia.
    - assert (B0 : (i =? 0) = false) by (apply Z.eqb_neq; lia).
      rewrite B0 in Hcall. cbn [negb] in Hcall.
      destruct (sibling d parent (i - 1)) as [ln| |] eqn:El;
        simpl in Hcall; try discriminate.
      apply sibling_Ok_bounds in El.
      destruct (canSpareAnElement g ln); [discriminate|].
      destruct (Z.eq_dec i (len (childNodes parent) - 1)) as [E1|E1].
      + assert (B1 : (i =? len (childNodes parent) - 1) = true)
          by (apply Z.eqb_eq; lia).
        rewrite B1 in Hcall. cbn [negb] in Hcall.
        injection Hcall as _ <-. lia.
      + assert (B1 : (i =? len (childNodes parent) - 1) = false)
          by (apply Z.eqb_neq; lia).
        rewrite B1 in Hcall. cbn [negb] in Hcall.
        destruct (sibling d parent (i + 1)) as [rn| |] eqn:Es;
          simpl in Hcall; try discriminate.
        apply sibling_Ok_bounds in Es.
        destruct (canSpareAnElement g rn); [discriminate|].
        injection Hcall as _ <-. lia. }
  destruct Hk as [Hk Hlt].
  split; [lia|]. split; [exact Hk|].
  intros Hinv. split; [lia|]. split; [lia|].
  apply merge_no_panic; lia.
Qed.

(** C10 on the sample tree: the leaf on page 6 is merged into its left
    sibling with right-node index 1. *)
Lemma rebalanceRemove_merge_index_witness :
  rebalanceRemove never_spare sample_dal sample_left (mkNode 6 [] []) 1
    = ('(d', parent') ← merge sample_dal sample_left (mkNode 6 [] []) 1;
       Ok (d', parent', mkNode 6 [] [])) /\
  1 <= 1 /\
  (1 = 1 + 1 /\ 1 = 0 \/ 1 = 1 /\ 1 <= 1) /\
  (len (childNodes sample_left) = len (items sample_left) + 1 ->
   0 <= 1 - 1 < len (items sample_left) /\
   0 <= 1 - 1 < len (childNodes sample_left) /\
   merge sample_dal sample_left (mkNode 6 [] []) 1 <> Panic).
Proof.
  apply (rebalanceRemove_merge_index never_spare sample_dal sample_left
           (mkNode 6 [] []) (mkNode 6 [] []) 1 1).
  reflexivity.
Defined.

(** ** Removal from an internal node *)

(** C1 fails on the sample tree: removing the root's item, the descent
    uses the root's child count for the index and so enters the middle
    leaf (page 6) below page 3 instead of the last one (page 7); the item
    written into the root is the key 2, while the in-order predecessor
    is the key 4. *)
Theorem removeItemFromInternal_wrong_leaf :
  exists (d' : dal) (n' : Node),
    removeItemFromInternal 5 sample_dal sample_root 0 = Some (Ok (d', n', [0; 1])) /\
    items n' = [item1 "2"%byte] /\
    pages d' !! 6 = Some (mkNode 6 [] []) /\
    pages d' !! 7 = Some (mkNode 7 [item1 "4"%byte] []) /\
    predecessor_leaf 5 sample_dal sample_root 0
    = Some (Ok (mkNode 7 [item1 "4"%byte] [])).
Proof.
  eexists _, _. split; [vm_compute; reflexivity|].
  split; [reflexivity|]. split; [reflexivity|]. split; reflexivity.
Qed.

(** ** Transactions *)





Lemma getNextPage_released (m : pgnum) (rel : list pgnum) (p : pgnum) :
  getNextPage (mkFreelist m (rel ++ [p])) = (p, mkFreelist m rel).
Proof.
  unfold getNextPage. simpl. rewrite reverse_snoc.
  now rewrite reverse_involutive.
Qed.

Lemma fold_releasePage (ps : list pgnum) : forall fr : freelist,
  fold_left releasePage ps fr = mkFreelist (maxPage fr) (releasedPages fr ++ ps).
Proof.
  induction ps as [|p ps IH]; intros fr; simpl.
  - rewrite app_nil_r. now destruct fr.
  - rewrite IH. simpl. now rewrite <- app_assoc.
Qed.

Lemma issued_pages_released (ps : list pgnum) :
  forall (dn : gmap Z Node) (del alloc : list pgnum) (w : bool)
         (pg : gmap Z Node) (m : pgnum) (rel : list pgnum) (r : pgnum),
  issued_pages (length ps)
    (mkTx dn del alloc w (mkDal pg (mkFreelist m (rel ++ ps)) r))
  = reverse ps.
Proof.
  induction ps as [|p ps IH] using rev_ind; intros dn del alloc w pg m rel r.
  - reflexivity.
  - rewrite length_app, Nat.add_comm. simpl.
    unfold tx_newNode. simpl.
    rewrite app_assoc, getNextPage_released. simpl.
    rewrite IH, reverse_snoc. reflexivity.
Qed.

(** C8: [Rollback] of a write transaction pushes every allocated page
    number onto the free-list's released list, empties the dirty-node
    map and the two lists, and leaves the pages of the store as they
    were; the next write transaction is then issued exactly the page
    numbers that were allocated (the last released first). *)
Theorem Rollback_releases_allocated (t : tx) :
  write t = true ->
  releasedPages (fl (db (Rollback t)))
    = releasedPages (fl (db t)) ++ allocatedPageNums t /\
  maxPage (fl (db (Rollback t))) = maxPage (fl (db t)) /\
  dirtyNodes (Rollback t) = ∅ /\
  pagesToDelete (Rollback t) = [] /\
  allocatedPageNums (Rollback t) = [] /\
  pages (db (Rollback t)) = pages (db t) /\
  issued_pages (length (allocatedPageNums t)) (newTx (db (Rollback t)) true)
    = reverse (allocatedPageNums t) /\
  issued_pages (length (allocatedPageNums t)) (newTx (db (Rollback t)) true)
    ≡ₚ allocatedPageNums t.
Proof.
  intros Hw. unfold Rollback. rewrite Hw. simpl.
  rewrite fold_releasePage. simpl.
  repeat (split; [reflexivity|]).
  unfold newTx. rewrite issued_pages_released.
  split; [reflexivity|]. apply reverse_Permutation.
Qed.

(** C8 on a transaction that allocated three fresh pages. *)
Lemma Rollback_releases_allocated_witness :
  releasedPages (fl (db (Rollback sample_alloc_tx))) = [10; 11; 12] /\
  dirtyNodes (Rollback sample_alloc_tx) = ∅ /\
  pages (db (Rollback sample_alloc_tx)) = sample_pages /\
  issued_pages 3 (newTx (db (Rollback sample_alloc_tx)) true) = [12; 11; 10].
Proof.
  destruct (Rollback_releases_allocated sample_alloc_tx eq_refl)
    as (H1 & _ & H3 & _ & _ & H6 & H7 & _).
  split; [exact H1|]. split; [exact H3|]. split; [exact H6|exact H7].
Defined.

(** C9: on a read-only transaction, [CreateCollection],
    [DeleteCollection] and a collection put each return the
    WriteInsideReadTx error and leave the transaction, with the store
    it holds, as it was. *)
Theorem write_inside_read_tx_rejected
    (wn : dal -> Node -> dal * Node * option error)
    (ser : Collection -> Item)
    (put_write : tx -> Collection -> list byte -> list byte -> tx * option error)
    (remove : tx -> Collection -> list byte -> tx * option error)
    (t : tx) (c : Collection) (collectionName k v : list byte) :
  write t = false ->
  CreateCollection wn ser put_write t collectionName
    = (t, Err errWriteInsideReadTxErr) /\
  DeleteCollection remove t collectionName = (t, Some errWriteInsideReadTxErr) /\
  Collection_Put put_write t c k v = (t, Some errWriteInsideReadTxErr).
Proof.
  intros Hw. unfold CreateCollection, DeleteCollection, Collection_Put.
  rewrite Hw. simpl. auto.
Qed.

(** C9 on a read transaction of the sample store. *)
Lemma write_inside_read_tx_rejected_witness :
  CreateCollection ok_writeNode sample_serialize sample_Put_write
    (newTx sample_dal false) ["c"%byte]
    = (newTx sample_dal false, Err errWriteInsideReadTxErr) /\
  DeleteCollection sample_Remove (newTx sample_dal false) ["c"%byte]
    = (newTx sample_dal false, Some errWriteInsideReadTxErr) /\
  Collection_Put sample_Put_write (newTx sample_dal false)
    (mkCollection ["c"%byte] 3) ["k"%byte] ["v"%byte]
    = (newTx sample_dal false, Some errWriteInsideReadTxErr).
Proof.
  apply (write_inside_read_tx_rejected ok_writeNode sample_serialize
           sample_Put_write sample_Remove (newTx sample_dal false)
           (mkCollection ["c"%byte] 3) ["c"%byte] ["k"%byte] ["v"%byte]).
  reflexivity.
Defined.

(** ** Bytes and little-endian integers *)

Lemma byte_to_Z_range (b : byte) : 0 <= byte_to_Z b < 256.
Proof.
  unfold byte_to_Z. pose proof (Byte.to_N_bounded b). lia.
Qed.

Lemma byte_to_of_Z (z : Z) : byte_to_Z (byte_of_Z z) = z mod 256.
Proof.
  unfold byte_to_Z, byte_of_Z.
  pose proof (Z.mod_pos_bound z 256 ltac:(lia)) as Hm.
  destruct (Byte.of_N (Z.to_N (z mod 256))) as [b|] eqn:E.
  - apply Byte.to_of_N in E. rewrite E. lia.
  - apply Byte.of_N_None_iff in E. lia.
Qed.

Lemma byte_of_to_Z (b : byte) : byte_of_Z (byte_to_Z b) = b.
Proof.
  unfold byte_of_Z. pose proof (byte_to_Z_range b) as Hr.
  rewrite Z.mod_small by exact Hr.
  unfold byte_to_Z. rewrite N2Z.id, Byte.of_to_N. reflexivity.
Qed.

Lemma length_le_bytes (w : nat) : forall v : Z, length (le_bytes w v) = w.
Proof. induction w as [|w IH]; intros v; simpl; [reflexivity|]. now rewrite IH. Qed.

Lemma lor_shiftl_8 (a b : Z) :
  0 <= a < 256 -> 0 <= b -> Z.lor a (Z.shiftl b 8) = a + 256 * b.
Proof.
  intros Ha Hb. rewrite <- Z.add_nocarry_lor.
  - rewrite Z.shiftl_mul_pow2 by lia. change (2 ^ 8) with 256. lia.
  - apply Z.bits_inj'. intros k Hk.
    rewrite Z.land_spec, Z.bits_0.
    destruct (Z.lt_ge_cases k 8) as [Hlt|Hge].
    + rewrite Z.shiftl_spec_low by lia. apply andb_false_r.
    + replace (Z.testbit a k) with false; [reflexivity|].
      symmetry. destruct (Z.eq_dec a 0) as [->|Hne]; [apply Z.bits_0|].
      apply Z.bits_above_log2; [lia|].
      apply Z.log2_lt_pow2; [lia|].
      apply Z.lt_le_trans with (2 ^ 8); [change (2 ^ 8) with 256; lia|].
      apply Z.pow_le_mono_r; lia.
Qed.

Lemma le_uint_nonneg (bs : list byte) : 0 <= le_uint bs.
Proof.
  induction bs as [|b bs IH]; simpl; [lia|].
  rewrite lor_shiftl_8 by (auto using byte_to_Z_range).
  pose proof (byte_to_Z_range b). lia.
Qed.

Lemma le_uint_le_bytes (w : nat) : forall v : Z,
  le_uint (le_bytes w v) = v mod 2 ^ (8 * Z.of_nat w).
Proof.
  induction w as [|w IH]; intros v.
  - simpl. now rewrite Z.mod_1_r.
  - cbn [le_bytes le_uint].
    rewrite lor_shiftl_8 by (auto using byte_to_Z_range, le_uint_nonneg).
    rewrite byte_to_of_Z, IH, Z.shiftr_div_pow2 by lia.
    change (2 ^ 8) with 256.
    replace (8 * Z.of_nat (S w)) with (8 + 8 * Z.of_nat w) by lia.
    rewrite Z.pow_add_r by lia. change (2 ^ 8) with 256.
    rewrite Z.rem_mul_r by lia. reflexivity.
Qed.

Lemma le_uint16_roundtrip (v : Z) :
  0 <= v < 65536 -> le_uint (le_bytes 2 (uint16 v)) = v.
Proof.
  intros Hv. rewrite le_uint_le_bytes. unfold uint16.
  change (2 ^ (8 * Z.of_nat 2)) with 65536.
  rewrite Z.mod_mod by lia. now apply Z.mod_small.
Qed.

Lemma le_uint64_roundtrip (v : Z) :
  is_pgnum v -> le_uint (le_bytes 8 (uint64 v)) = v.
Proof.
  intros Hv. rewrite le_uint_le_bytes. unfold uint64, is_pgnum in *.
  change (2 ^ (8 * Z.of_nat 8)) with 18446744073709551616.
  rewrite Z.mod_mod by lia. now apply Z.mod_small.
Qed.

(** ** Writing into and reading from a buffer *)

Lemma lookup_write_at (buf : list byte) (pos : Z) (bs : list byte) (i : nat) :
  (Z.to_nat pos + length bs <= length buf)%nat ->
  write_at buf pos bs !! i
  = if decide (Z.to_nat pos <= i < Z.to_nat pos + length bs)%nat
    then bs !! (i - Z.to_nat pos)%nat else buf !! i.
Proof.
  intros Hfit. unfold write_at.
  destruct (decide (Z.to_nat pos <= i < Z.to_nat pos + length bs)%nat) as [Hin|Hout].
  - rewrite lookup_app_r by (rewrite length_take; lia).
    rewrite length_take, Nat.min_l by lia.
    apply lookup_app_l. lia.
  - destruct (decide (i < Z.to_nat pos)%nat) as [Hlt|Hge].
    + rewrite lookup_app_l by (rewrite length_take; lia).
      now apply lookup_take_lt.
    + rewrite lookup_app_r by (rewrite length_take; lia).
      rewrite length_take, Nat.min_l by lia.
      rewrite lookup_app_r by lia.
      rewrite lookup_drop. f_equal. lia.
Qed.

Lemma length_write_at (buf : list byte) (pos : Z) (bs : list byte) :
  (Z.to_nat pos + length bs <= length buf)%nat ->
  length (write_at buf pos bs) = length buf.
Proof.
  intros Hfit. unfold write_at.
  rewrite !length_app, length_take, length_drop. lia.
Qed.

Lemma write_at_app (buf : list byte) (pos : Z) (a b : list byte) :
  0 <= pos ->
  (Z.to_nat pos + length a + length b <= length buf)%nat ->
  write_at (write_at buf pos a) (pos + len a) b = write_at buf pos (a ++ b).
Proof.
  intros H0 Hfit. apply list_eq. intros i. unfold len.
  rewrite !lookup_write_at
    by (rewrite ?length_write_at, ?length_app; lia).
  rewrite length_app.
  replace (Z.to_nat (pos + Z.of_nat (length a))) with (Z.to_nat pos + length a)%nat by lia.
  repeat case_decide; try lia; try reflexivity.
  - rewrite lookup_app_r by lia. f_equal. lia.
  - rewrite lookup_app_l by lia. reflexivity.
Qed.

Lemma write_at_app_rev (buf : list byte) (pos : Z) (a b : list byte) :
  0 <= pos ->
  (Z.to_nat pos + length a + length b <= length buf)%nat ->
  write_at (write_at buf (pos + len a) b) pos a = write_at buf pos (a ++ b).
Proof.
  intros H0 Hfit. apply list_eq. intros i. unfold len.
  assert (Hp : Z.to_nat (pos + Z.of_nat (length a)) = (Z.to_nat pos + length a)%nat) by lia.
  rewrite !lookup_write_at
    by (rewrite ?length_write_at, ?length_app, ?Hp; lia).
  rewrite length_app, Hp.
  repeat case_decide; try lia; try reflexivity.
  - rewrite lookup_app_l by lia. reflexivity.
  - rewrite lookup_app_r by lia. f_equal. lia.
Qed.

Lemma lookup_bytes_at (buf : list byte) (pos : Z) (k j : nat) :
  bytes_at buf pos k !! j
  = if decide (j < k)%nat then buf !! (Z.to_nat pos + j)%nat else None.
Proof.
  unfold bytes_at. case_decide.
  - rewrite lookup_take_lt by lia. apply lookup_drop.
  - apply lookup_take_ge. lia.
Qed.

Lemma bytes_at_write_at (buf : list byte) (pos : Z) (bs : list byte) :
  (Z.to_nat pos + length bs <= length buf)%nat ->
  bytes_at (write_at buf pos bs) pos (length bs) = bs.
Proof.
  intros Hfit. apply list_eq. intros j.
  rewrite lookup_bytes_at. case_decide.
  - rewrite lookup_write_at by lia. case_decide; [|lia]. f_equal. lia.
  - symmetry. apply lookup_ge_None. lia.
Qed.

Lemma bytes_at_same_outside (lo hi : Z) (buf buf' : list byte) (q : Z) (k : nat) :
  same_outside lo hi buf buf' ->
  0 <= q -> q + Z.of_nat k <= lo \/ hi <= q ->
  bytes_at buf' q k = bytes_at buf q k.
Proof.
  intros [_ Hsame] H0 Hout. apply list_eq. intros j.
  rewrite !lookup_bytes_at. case_decide; [|reflexivity].
  apply Hsame. lia.
Qed.

Lemma write_at_same_outside (lo hi : Z) (buf : list byte) (pos : Z) (bs : list byte) :
  0 <= pos -> lo <= pos -> pos + len bs <= hi ->
  (Z.to_nat pos + length bs <= length buf)%nat ->
  same_outside lo hi buf (write_at buf pos bs).
Proof.
  intros H0 Hlo Hhi Hfit. unfold len in Hhi. split.
  - now apply length_write_at.
  - intros i Hi. rewrite lookup_write_at by exact Hfit.
    case_decide; [lia|reflexivity].
Qed.

Lemma same_outside_trans (lo hi : Z) (b1 b2 b3 : list byte) :
  same_outside lo hi b1 b2 -> same_outside lo hi b2 b3 -> same_outside lo hi b1 b3.
Proof.
  intros [L1 S1] [L2 S2]. split; [congruence|].
  intros i Hi. rewrite S2, S1 by exact Hi. reflexivity.
Qed.

Lemma same_outside_weaken (lo hi lo' hi' : Z) (b1 b2 : list byte) :
  lo' <= lo -> hi <= hi' -> same_outside lo hi b1 b2 -> same_outside lo' hi' b1 b2.
Proof.
  intros Hlo Hhi [L S]. split; [exact L|].
  intros i Hi. apply S. lia.
Qed.

Lemma bind_Ok {A B} (a : A) (f : A -> result B) : (Ok a ≫= f) = f a.
Proof. reflexivity. Qed.

Lemma put_uint_Ok (w : nat) (buf : list byte) (pos v : Z) :
  0 <= pos -> pos + Z.of_nat w <= len buf ->
  put_uint w buf pos v = Ok (write_at buf pos (le_bytes w v)).
Proof.
  intros H0 H1. unfold put_uint, len in *.
  replace (0 <=? pos) with true by (symmetry; apply Z.leb_le; lia).
  replace (pos + Z.of_nat w <=? Z.of_nat (length buf)) with true
    by (symmetry; apply Z.leb_le; lia).
  reflexivity.
Qed.

Lemma copy_at_Ok (buf : list byte) (pos : Z) (src : list byte) :
  0 <= pos -> pos + len src <= len buf ->
  copy_at buf pos src = Ok (write_at buf pos src).
Proof.
  intros H0 H1. unfold copy_at, len in *.
  replace (0 <=? pos) with true by (symmetry; apply Z.leb_le; lia).
  replace (pos <=? Z.of_nat (length buf)) with true
    by (symmetry; apply Z.leb_le; lia).
  simpl. rewrite take_ge by lia. reflexivity.
Qed.

Lemma put_byte_Ok (buf : list byte) (pos : Z) (b : byte) :
  0 <= pos < len buf -> put_byte buf pos b = Ok (write_at buf pos [b]).
Proof.
  intros H. unfold put_byte, len in *.
  replace (0 <=? pos) with true by (symmetry; apply Z.leb_le; lia).
  replace (pos <? Z.of_nat (length buf)) with true
    by (symmetry; apply Z.ltb_lt; lia).
  reflexivity.
Qed.

Lemma length_slot_bytes (leaf : bool) (child off : Z) :
  len (slot_bytes leaf child off) = slot_size leaf.
Proof.
  unfold slot_bytes, slot_size, len.
  destruct leaf; rewrite length_app, !length_le_bytes; reflexivity.
Qed.

Lemma length_cell_bytes (it : Item) :
  len (cell_bytes it) = len (key it) + len (value it) + 2.
Proof.
  unfold cell_bytes, len. simpl. rewrite length_app. simpl. lia.
Qed.

#[local] Arguments write_at : simpl never.
#[local] Arguments le_bytes : simpl never.

(** The writes of one iteration of [serialize] amount to storing the
    slot at the left cursor and the cell below the right cursor. *)
Lemma serialize_item_writes (n : Node) (leaf : bool) (i : Z) (buf : list byte)
    (l r : Z) (it : Item) (child : pgnum) :
  0 <= i ->
  items n !! Z.to_nat i = Some it ->
  (leaf = false -> childNodes n !! Z.to_nat i = Some child) ->
  0 <= l ->
  l + slot_size leaf <= r - len (key it) - len (value it) - 2 ->
  r <= len buf ->
  serialize_item n leaf i (buf, l, r)
  = Ok (write_at (write_at buf l
                    (slot_bytes leaf child (r - len (key it) - len (value it) - 2)))
                 (r - len (key it) - len (value it) - 2) (cell_bytes it),
        l + slot_size leaf,
        r - len (key it) - len (value it) - 2).
Proof.
  intros Hi Hit Hch Hl Hroom Hr.
  assert (Hk : 0 <= len (key it)) by (unfold len; lia).
  assert (Hv : 0 <= len (value it)) by (unfold len; lia).
  unfold serialize_item. rewrite (index_Ok _ _ _ Hi Hit), bind_Ok.
  set (off := r - len (key it) - len (value it) - 2) in *.
  assert (Hslot : exists b1,
    (if negb leaf then
       childNode ← index (childNodes n) i;
       buf0 ← PutUint64 buf l (uint64 childNode);
       Ok (buf0, l + pageNumSize)
     else Ok (buf, l)) = Ok (b1, l + slot_size leaf - 2) /\
    write_at b1 (l + slot_size leaf - 2) (le_bytes 2 (uint16 off))
    = write_at buf l (slot_bytes leaf child off) /\
    length b1 = length buf).
  { destruct leaf; simpl.
    - exists buf. replace (l + 2 - 2) with l by lia. auto.
    - rewrite (index_Ok _ _ _ Hi (Hch eq_refl)), bind_Ok.
      unfold PutUint64. rewrite put_uint_Ok by (simpl in *; lia).
      rewrite bind_Ok. eexists. split; [|split].
      + unfold pageNumSize. do 3 f_equal. lia.
      + unfold slot_bytes.
        replace (l + 10 - 2) with (l + len (le_bytes 8 (uint64 child)))
          by (unfold len; rewrite length_le_bytes; lia).
        apply write_at_app; [lia|].
        rewrite !length_le_bytes. unfold len in *. simpl in *. lia.
      + apply length_write_at. rewrite length_le_bytes.
        unfold len in *. simpl in *. lia. }
  destruct Hslot as (b1 & -> & Hb1 & Hlen1). rewrite bind_Ok.
  assert (Hss : 2 <= slot_size leaf <= 10) by (destruct leaf; simpl; lia).
  cbv beta iota.
  unfold PutUint16. rewrite put_uint_Ok by (unfold len in *; lia).
  rewrite bind_Ok, Hb1.
  set (b2 := write_at buf l (slot_bytes leaf child off)).
  assert (Hlen2 : length b2 = length buf).
  { apply length_write_at. pose proof (length_slot_bytes leaf child off) as E.
    unfold len in *. lia. }
  rewrite copy_at_Ok by (unfold len in *; lia). rewrite bind_Ok.
  rewrite put_byte_Ok
    by (unfold len in *; rewrite length_write_at; lia).
  rewrite bind_Ok.
  set (vb := byte_of_Z (len (value it))).
  set (kb := byte_of_Z (len (key it))).
  replace (r - len (value it)) with ((r - len (value it) - 1) + len [vb])
    by (unfold len; simpl; lia).
  replace (r - len (value it) - 1 + len [vb] - 1) with (r - len (value it) - 1)
    by (unfold len; simpl; lia).
  rewrite write_at_app_rev by (unfold len in *; simpl; lia).
  set (tl1 := [vb] ++ value it).
  assert (Htl1 : len tl1 = len (value it) + 1) by (unfold len; simpl; lia).
  assert (Hlen3 : length (write_at b2 (r - len (value it) - 1) tl1) = length buf).
  { rewrite length_write_at; unfold len in *; lia. }
  rewrite copy_at_Ok by (unfold len in *; rewrite ?Hlen3; lia).
  rewrite bind_Ok.
  rewrite put_byte_Ok
    by (unfold len in *; rewrite length_write_at; rewrite Hlen3; lia).
  rewrite bind_Ok.
  replace (r - len (value it) - 1)
    with ((r - len (value it) - 1 - len (key it)) + len (key it)) by lia.
  replace (r - len (value it) - 1 - len (key it) + len (key it) - len (key it))
    with (r - len (value it) - 1 - len (key it)) by lia.
  rewrite write_at_app_rev by (unfold len in *; lia).
  replace (r - len (value it) - 1 - len (key it)) with (off + len [kb])
    by (unfold off, len; simpl; lia).
  replace (off + len [kb] - 1) with off by (unfold len; simpl; lia).
  rewrite write_at_app_rev
    by (try rewrite length_app; unfold len in *; simpl; lia).
  subst tl1. unfold cell_bytes. simpl.
  do 3 f_equal. lia.
Qed.

Lemma items_size_nonneg (o : Z) (its : list Item) : 0 <= o -> 0 <= items_size o its.
Proof.
  intros Ho. induction its as [|it its IH]; simpl; [lia|]. unfold len. lia.
Qed.

Lemma tail_drop {A} (s : list A) (i : nat) : tail (drop i s) = drop (S i) s.
Proof.
  revert s. induction i as [|i IH]; intros [|a s]; simpl; try reflexivity.
  apply IH.
Qed.

Lemma head_drop {A} (s : list A) (i : nat) : head (drop i s) = s !! i.
Proof.
  revert s. induction i as [|i IH]; intros [|a s]; simpl; try reflexivity.
  apply IH.
Qed.

Lemma slot_size_range (leaf : bool) : 2 <= slot_size leaf <= 10.
Proof. destruct leaf; simpl; lia. Qed.

(** The loop of [serialize] writes only between the two cursors, and
    leaves the slots and cells of the items behind. *)
Lemma serialize_loop_encodes (n : Node) (leaf : bool) (k : nat) :
  forall (i : Z) (buf : list byte) (l r : Z),
  0 <= i ->
  (Z.to_nat i + k)%nat = length (items n) ->
  (leaf = false -> (length (items n) <= length (childNodes n))%nat) ->
  0 <= l -> r <= len buf ->
  l + slot_size leaf * Z.of_nat k <= r - items_size 2 (drop (Z.to_nat i) (items n)) ->
  exists buf' : list byte,
    serialize_loop n leaf i k (buf, l, r)
    = Ok (buf', l + slot_size leaf * Z.of_nat k,
          r - items_size 2 (drop (Z.to_nat i) (items n))) /\
    same_outside l r buf buf' /\
    encoded buf' leaf l r (drop (Z.to_nat i) (items n)) (drop (Z.to_nat i) (childNodes n)).
Proof.
  induction k as [|k IH]; intros i buf l r Hi Hlen Hcs Hl Hr Hroom.
  - rewrite drop_ge by lia. simpl. exists buf.
    split; [do 3 f_equal; lia|]. split; [split; auto|exact I].
  - destruct (lookup_lt_is_Some_2 (items n) (Z.to_nat i)) as [it Hit]; [lia|].
    rewrite (drop_S _ _ _ Hit) in *. cbn [items_size foldr] in Hroom.
    fold (items_size 2 (drop (S (Z.to_nat i)) (items n))) in Hroom.
    pose proof (items_size_nonneg 2 (drop (S (Z.to_nat i)) (items n)) ltac:(lia)) as Hnn.
    pose proof (slot_size_range leaf) as Hss.
    assert (Hk : 0 <= len (key it)) by (unfold len; lia).
    assert (Hv : 0 <= len (value it)) by (unfold len; lia).
    set (child := default 0 (head (drop (Z.to_nat i) (childNodes n)))).
    assert (Hch : leaf = false -> childNodes n !! Z.to_nat i = Some child).
    { intros Hnl. pose proof (Hcs Hnl) as Hcs'.
      destruct (lookup_lt_is_Some_2 (childNodes n) (Z.to_nat i)) as [c Hc]; [lia|].
      unfold child. rewrite head_drop, Hc. exact Hc. }
    set (off := r - len (key it) - len (value it) - 2) in *.
    assert (Hoff : l + slot_size leaf <= off) by (unfold off; nia).
    cbn [serialize_loop].
    rewrite (serialize_item_writes n leaf i buf l r it child Hi Hit Hch Hl Hoff Hr).
    rewrite bind_Ok. fold off.
    set (b2 := write_at buf l (slot_bytes leaf child off)).
    set (b3 := write_at b2 off (cell_bytes it)).
    pose proof (length_slot_bytes leaf child off) as Lslot.
    pose proof (length_cell_bytes it) as Lcell.
    assert (Hlen2 : length b2 = length buf).
    { apply length_write_at. unfold len in *. lia. }
    assert (Hlen3 : length b3 = length buf).
    { unfold b3. rewrite length_write_at; unfold len in *; lia. }
    destruct (IH (i + 1) b3 (l + slot_size leaf) off) as (buf' & Hrun & Hsame & Henc).
    + lia.
    + lia.
    + exact Hcs.
    + lia.
    + unfold len in *. lia.
    + replace (Z.to_nat (i + 1)) with (S (Z.to_nat i)) by lia. unfold off. nia.
    + replace (Z.to_nat (i + 1)) with (S (Z.to_nat i)) in * by lia.
      exists buf'. split; [|split].
      * rewrite Hrun. cbn [items_size foldr].
        fold (items_size 2 (drop (S (Z.to_nat i)) (items n))).
        replace (Z.of_nat (S k)) with (Z.of_nat k + 1) by lia.
        f_equal. apply pair_equal_spec. split.
        { apply pair_equal_spec. split; [reflexivity|ring]. }
        unfold off. lia.
      * apply same_outside_trans with b3.
        -- apply same_outside_trans with b2.
           ++ apply write_at_same_outside; unfold len in *; lia.
           ++ apply write_at_same_outside; unfold len in *; lia.
        -- apply (same_outside_weaken (l + slot_size leaf) off); [lia|unfold off; lia|].
           exact Hsame.
      * cbn [encoded]. fold off. fold child. split; [|split].
        -- rewrite (bytes_at_same_outside _ _ _ _ _ _ Hsame) by lia.
           unfold b3.
           rewrite (bytes_at_same_outside off r b2)
             by (try apply write_at_same_outside; unfold len in *; lia).
           replace (Z.to_nat (slot_size leaf)) with (length (slot_bytes leaf child off))
             by (unfold len in *; lia).
           apply bytes_at_write_at. unfold len in *. lia.
        -- rewrite (bytes_at_same_outside _ _ _ _ _ _ Hsame) by lia.
           apply bytes_at_write_at. unfold len in *. lia.
        -- rewrite tail_drop. exact Henc.
Qed.

Lemma bytes_at_fits (buf : list byte) (q : Z) (k : nat) (bs : list byte) :
  bytes_at buf q k = bs -> length bs = k -> (0 < k)%nat ->
  (Z.to_nat q + k <= length buf)%nat.
Proof.
  intros <-. unfold bytes_at. rewrite length_take, length_drop. lia.
Qed.

Lemma bytes_at_app_l (buf : list byte) (q : Z) (k : nat) (a b : list byte) :
  bytes_at buf q k = a ++ b -> bytes_at buf q (length a) = a.
Proof.
  intros H. unfold bytes_at in *.
  assert (Hle : (length a <= k)%nat).
  { apply (f_equal length) in H. rewrite length_take, length_app in H. lia. }
  replace (length a) with (length a `min` k)%nat by lia.
  rewrite <- take_take, H. apply take_app_length.
Qed.

Lemma bytes_at_app_r (buf : list byte) (q : Z) (k : nat) (a b : list byte) :
  0 <= q -> bytes_at buf q k = a ++ b ->
  bytes_at buf (q + len a) (length b) = b.
Proof.
  intros H0 H. apply list_eq. intros j.
  assert (Hle : (length a + length b <= k)%nat).
  { apply (f_equal length) in H. unfold bytes_at in H.
    rewrite length_take, length_app in H. lia. }
  rewrite lookup_bytes_at. case_decide.
  - apply (f_equal (fun s => s !! (length a + j)%nat)) in H.
    rewrite lookup_bytes_at in H. case_decide; [|lia].
    rewrite lookup_app_r in H by lia.
    replace (length a + j - length a)%nat with j in H by lia.
    rewrite <- H. f_equal. unfold len. lia.
  - symmetry. apply lookup_ge_None. lia.
Qed.

Lemma bytes_at_head (buf : list byte) (q : Z) (k : nat) (b : byte) (rest : list byte) :
  0 <= q -> bytes_at buf q k = b :: rest -> index buf q = Ok b.
Proof.
  intros H0 H. apply index_Ok; [exact H0|].
  apply (f_equal (fun s => s !! O)) in H.
  rewrite lookup_bytes_at in H. case_decide; [|discriminate].
  rewrite Nat.add_0_r in H. exact H.
Qed.

Lemma get_uint_bytes_at (w : nat) (buf : list byte) (pos : Z) :
  0 <= pos -> (Z.to_nat pos + w <= length buf)%nat ->
  get_uint w buf pos = Ok (le_uint (bytes_at buf pos w)).
Proof.
  intros H0 Hfit. unfold get_uint.
  replace (0 <=? pos) with true by (symmetry; apply Z.leb_le; lia).
  replace (pos + Z.of_nat w <=? Z.of_nat (length buf)) with true
    by (symmetry; apply Z.leb_le; lia).
  reflexivity.
Qed.

Lemma slice_bytes_at {A} (buf : list byte) (lo : Z) (s : list A) :
  0 <= lo -> (Z.to_nat lo + length s <= length buf)%nat ->
  slice buf lo (lo + len s) = Ok (bytes_at buf lo (length s)).
Proof.
  intros H0 Hfit. rewrite slice_Ok by (unfold len; lia).
  unfold bytes_at, len. do 2 f_equal. lia.
Qed.

(** One iteration of [deserialize] reads back the item whose slot and
    cell the buffer holds. *)
Lemma deserialize_item_reads (buf : list byte) (leaf : bool) (l r : Z)
    (it : Item) (child : pgnum) (n0 : Node) :
  let off := r - len (key it) - len (value it) - 2 in
  bytes_at buf l (Z.to_nat (slot_size leaf)) = slot_bytes leaf child off ->
  bytes_at buf off (length (cell_bytes it)) = cell_bytes it ->
  key_value_fit it ->
  (leaf = false -> is_pgnum child) ->
  0 <= l -> 0 <= off -> r <= 65535 ->
  deserialize_item buf (if leaf then 1 else 0) (l, n0)
  = Ok (l + slot_size leaf,
        mkNode (pageNum n0) (items n0 ++ [it])
               (childNodes n0 ++ (if leaf then [] else [child]))).
Proof.
  intros off Hslot Hcell [Hkf Hvf] Hpg Hl Hoff Hr.
  assert (Hk : 0 <= len (key it)) by (unfold len; lia).
  assert (Hv : 0 <= len (value it)) by (unfold len; lia).
  pose proof (length_slot_bytes leaf child off) as Lslot.
  pose proof (length_cell_bytes it) as Lcell.
  pose proof (slot_size_range leaf) as Hss.
  assert (Fslot : (Z.to_nat l + Z.to_nat (slot_size leaf) <= length buf)%nat).
  { apply (bytes_at_fits _ _ _ _ Hslot); unfold len in Lslot; lia. }
  assert (Fcell : (Z.to_nat off + length (cell_bytes it) <= length buf)%nat).
  { apply (bytes_at_fits _ _ _ _ Hcell); [reflexivity|unfold len in Lcell; lia]. }
  unfold deserialize_item.
  assert (Hleft : exists n1,
    (if (if leaf then 1 else 0) =? 0 then
       pageNum' ← Uint64 buf l;
       Ok (l + pageNumSize,
           mkNode (pageNum n0) (items n0) (childNodes n0 ++ [pageNum']))
     else Ok (l, n0)) = Ok (l + slot_size leaf - 2, n1) /\
    pageNum n1 = pageNum n0 /\ items n1 = items n0 /\
    childNodes n1 = childNodes n0 ++ (if leaf then [] else [child]) /\
    bytes_at buf (l + slot_size leaf - 2) 2 = le_bytes 2 (uint16 off)).
  { unfold slot_bytes, slot_size in *. destruct leaf; cbv beta iota in *.
    - change (1 =? 0) with false. cbv beta iota.
      exists n0. replace (l + 2 - 2) with l by lia.
      rewrite app_nil_r. change ([] ++ le_bytes 2 (uint16 off))
        with (le_bytes 2 (uint16 off)) in Hslot. auto.
    - change (0 =? 0) with true. cbv beta iota.
      unfold Uint64. rewrite get_uint_bytes_at by lia.
      rewrite bind_Ok.
      pose proof (bytes_at_app_l _ _ _ _ _ Hslot) as Ha.
      pose proof (bytes_at_app_r _ _ _ _ _ Hl Hslot) as Hb.
      rewrite length_le_bytes in Ha, Hb.
      unfold len in Hb. rewrite length_le_bytes in Hb.
      rewrite Ha, le_uint64_roundtrip by auto.
      unfold pageNumSize.
      replace (l + 10 - 2) with (l + 8) by lia.
      eexists. split; [reflexivity|]. auto. }
  destruct Hleft as (n1 & -> & Hp1 & Hi1 & Hc1 & Hoffb). rewrite bind_Ok.
  cbv beta iota.
  unfold Uint16. rewrite get_uint_bytes_at by lia. rewrite bind_Ok.
  rewrite Hoffb, le_uint16_roundtrip by lia.
  fold off.
  unfold cell_bytes in Hcell.
  rewrite (bytes_at_head _ _ _ _ _ Hoff Hcell), bind_Ok.
  rewrite byte_to_of_Z, Z.mod_small by lia.
  assert (U1 : uint16 (off + 1) = off + 1) by (unfold uint16; apply Z.mod_small; lia).
  rewrite U1.
  assert (U2 : uint16 (off + 1 + len (key it)) = off + 1 + len (key it))
    by (unfold uint16; apply Z.mod_small; lia).
  rewrite U2.
  change (byte_of_Z (len (key it)) :: key it ++ byte_of_Z (len (value it)) :: value it)
    with ([byte_of_Z (len (key it))] ++ key it ++ byte_of_Z (len (value it)) :: value it)
    in Hcell.
  pose proof (bytes_at_app_r _ _ _ _ _ Hoff Hcell) as Hrest.
  change (len [byte_of_Z (len (key it))]) with 1 in Hrest.
  assert (Hoff1 : 0 <= off + 1) by lia.
  pose proof (bytes_at_app_l _ _ _ _ _ Hrest) as Hkey.
  pose proof (bytes_at_app_r _ _ _ _ _ Hoff1 Hrest) as Hrest2.
  assert (Fall : Z.of_nat (length (cell_bytes it)) = len (key it) + len (value it) + 2)
    by exact Lcell.
  rewrite slice_bytes_at by (unfold len in *; lia).
  rewrite Hkey, bind_Ok.
  assert (Hoff2 : 0 <= off + 1 + len (key it)) by lia.
  rewrite (bytes_at_head _ _ _ _ _ Hoff2 Hrest2), bind_Ok.
  rewrite byte_to_of_Z, Z.mod_small by lia.
  assert (U3 : uint16 (off + 1 + len (key it) + 1) = off + 1 + len (key it) + 1)
    by (unfold uint16; apply Z.mod_small; lia).
  rewrite U3.
  assert (U4 : uint16 (off + 1 + len (key it) + 1 + len (value it))
               = off + 1 + len (key it) + 1 + len (value it))
    by (unfold uint16; apply Z.mod_small; lia).
  rewrite U4.
  change (byte_of_Z (len (value it)) :: value it)
    with ([byte_of_Z (len (value it))] ++ value it) in Hrest2.
  pose proof (bytes_at_app_r _ _ _ _ _ Hoff2 Hrest2) as Hval.
  change (len [byte_of_Z (len (value it))]) with 1 in Hval.
  rewrite slice_bytes_at by (unfold len in *; lia).
  rewrite Hval, bind_Ok.
  rewrite Hp1, Hi1, Hc1. destruct it as [k v]. simpl.
  replace (l + slot_size leaf - 2 + 2) with (l + slot_size leaf) by lia.
  reflexivity.
Qed.

Lemma deserialize_loop_reads (buf : list byte) (leaf : bool) (its : list Item) :
  forall (l r : Z) (cs : list pgnum) (n0 : Node),
  encoded buf leaf l r its cs ->
  Forall key_value_fit its ->
  (leaf = false -> Forall is_pgnum cs /\ (length its <= length cs)%nat) ->
  0 <= l -> 0 <= r - items_size 2 its -> r <= 65535 ->
  deserialize_loop buf (if leaf then 1 else 0) (length its) (l, n0)
  = Ok (l + slot_size leaf * len its,
        mkNode (pageNum n0) (items n0 ++ its)
               (childNodes n0 ++ (if leaf then [] else take (length its) cs))).
Proof.
  induction its as [|it its IH]; intros l r cs n0 Henc Hfit Hcs Hl Hr0 Hr.
  - simpl. unfold len. simpl. rewrite Z.mul_0_r, Z.add_0_r.
    destruct n0 as [p i c]. simpl. rewrite !app_nil_r.
    destruct leaf; rewrite ?app_nil_r; reflexivity.
  - cbn [encoded] in Henc. destruct Henc as (Hslot & Hcell & Henc).
    apply Forall_cons in Hfit as [Hfit1 Hfit].
    cbn [items_size foldr] in Hr0. fold (items_size 2 its) in Hr0.
    pose proof (items_size_nonneg 2 its ltac:(lia)) as Hnn.
    assert (Hk : 0 <= len (key it)) by (unfold len; lia).
    assert (Hv : 0 <= len (value it)) by (unfold len; lia).
    assert (Hchild : leaf = false ->
              is_pgnum (default 0 (head cs)) /\
              Forall is_pgnum (tail cs) /\ (length its <= length (tail cs))%nat /\
              take (S (length its)) cs = default 0 (head cs) :: take (length its) (tail cs)).
    { intros Hnl. destruct (Hcs Hnl) as [Hall Hlen].
      destruct cs as [|c cs']; simpl in *; [lia|].
      apply Forall_cons in Hall as [Hc Hall].
      split; [exact Hc|]. split; [exact Hall|]. split; [lia|reflexivity]. }
    pose proof (slot_size_range leaf) as Hss.
    cbn [length deserialize_loop].
    rewrite (deserialize_item_reads buf leaf l r it (default 0 (head cs)) n0
               Hslot Hcell Hfit1 (fun H => proj1 (Hchild H)) Hl ltac:(lia) Hr).
    rewrite bind_Ok.
    rewrite (IH _ _ _ _ Henc Hfit); try lia.
    + f_equal. f_equal.
      * unfold len. simpl length. lia.
      * cbn [pageNum items childNodes]. f_equal.
        -- rewrite <- app_assoc. reflexivity.
        -- rewrite <- app_assoc. f_equal. destruct leaf; [reflexivity|].
           destruct (Hchild eq_refl) as (_ & _ & _ & ->). reflexivity.
    + intros Hnl. destruct (Hchild Hnl) as (_ & H1 & H2 & _). auto.
Qed.

Lemma encoded_same_outside (lo hi : Z) (buf buf' : list byte) (leaf : bool)
    (its : list Item) : forall (l r : Z) (cs : list pgnum),
  same_outside lo hi buf buf' ->
  encoded buf leaf l r its cs ->
  0 <= l -> lo <= hi ->
  l + slot_size leaf * len its <= lo ->
  hi <= r - items_size 2 its ->
  encoded buf' leaf l r its cs.
Proof.
  induction its as [|it its IH]; intros l r cs Hsame Henc Hl Hlh Hlo Hhi.
  - exact I.
  - cbn [encoded] in *. destruct Henc as (Hslot & Hcell & Henc).
    cbn [items_size foldr] in Hhi. fold (items_size 2 its) in Hhi.
    pose proof (items_size_nonneg 2 its ltac:(lia)) as Hnn.
    pose proof (slot_size_range leaf) as Hss.
    assert (Hlen : len (it :: its) = len its + 1) by (unfold len; simpl length; lia).
    assert (Hn : 0 <= len its) by (unfold len; lia).
    rewrite Hlen in Hlo.
    split; [|split].
    + rewrite (bytes_at_same_outside _ _ _ _ _ _ Hsame); [exact Hslot|lia|nia].
    + rewrite (bytes_at_same_outside _ _ _ _ _ _ Hsame); [exact Hcell|nia|lia].
    + apply IH; auto; try lia; nia.
Qed.

Lemma items_size_shift (a b : Z) (its : list Item) :
  items_size (a + b) its = items_size a its + b * len its.
Proof.
  induction its as [|it its IH]; simpl; [unfold len; simpl; lia|].
  rewrite IH. unfold len. simpl length. lia.
Qed.


(** [serialize] succeeds when the slots and cells fit below the last
    byte of the buffer, and leaves the header, the slots and cells, and
    the trailing child pointer of a non-leaf behind. *)
Lemma serialize_layout (n : Node) (buf : list byte) :
  (childNodes n = [] \/ len (childNodes n) = len (items n) + 1) ->
  slotted_size n < len buf ->
  exists buf' : list byte,
    serialize n buf = Ok buf' /\
    bytes_at buf' 0 3
      = [byte_of_Z (if isLeaf n then 1 else 0)] ++ le_bytes 2 (uint16 (len (items n))) /\
    encoded buf' (isLeaf n) 3 (len buf - 1) (items n) (childNodes n) /\
    (isLeaf n = false ->
     bytes_at buf' (3 + slot_size false * len (items n)) 8
       = le_bytes 8 (uint64 (default 0 (last (childNodes n))))).
Proof.
  intros Hshape Hsize. unfold slotted_size in Hsize.
  rewrite (items_size_shift 2 2) in Hsize.
  pose proof (items_size_nonneg 2 (items n) ltac:(lia)) as Hnn.
  assert (HN : 0 <= len (items n)) by (unfold len; lia).
  set (leaf := isLeaf n) in *.
  set (hdr := [byte_of_Z (if leaf then 1 else 0)] ++ le_bytes 2 (uint16 (len (items n)))).
  assert (Hroom : 3 + slot_size leaf * len (items n)
                  + (if leaf then 0 else 8) <= len buf - 1 - items_size 2 (items n)).
  { destruct leaf; simpl; lia. }
  assert (Hcs : leaf = false -> (length (items n) <= length (childNodes n))%nat).
  { intros Hnl. destruct Hshape as [Hnil|Hlen].
    - apply isLeaf_nil in Hnil. unfold leaf in Hnl. congruence.
    - unfold len in Hlen. lia. }
  pose proof (slot_size_range leaf) as Hss.
  assert (H4 : 4 <= len buf /\
               3 + slot_size leaf * len (items n)
               <= len buf - 1 - items_size 2 (items n)).
  { clear Hsize. destruct leaf; simpl in *; nia. }
  destruct H4 as [H4 Hroom'].
  unfold serialize. fold leaf.
  rewrite put_byte_Ok by lia. rewrite bind_Ok.
  unfold PutUint16. rewrite put_uint_Ok
    by (unfold len in *; rewrite ?length_write_at; simpl; nia).
  rewrite bind_Ok.
  change (0 + 1) with (0 + len [byte_of_Z (if leaf then 1 else 0)]).
  rewrite write_at_app by (rewrite ?length_le_bytes; unfold len in *; simpl; nia).
  fold hdr.
  assert (Lhdr : length hdr = 3%nat) by reflexivity.
  set (b0 := write_at buf 0 hdr).
  assert (Lb0 : length b0 = length buf).
  { apply length_write_at. unfold len in *. rewrite Lhdr. nia. }
  change (0 + len [byte_of_Z (if leaf then 1 else 0)] + 2) with 3.
  destruct (serialize_loop_encodes n leaf (length (items n)) 0 b0 3 (len buf - 1))
    as (b1 & Hrun & Hsame & Henc).
  { lia. } { reflexivity. } { exact Hcs. } { lia. } { unfold len in *. lia. }
  { change (Z.to_nat 0) with O. rewrite drop_0. fold (len (items n)). nia. }
  change (Z.to_nat 0) with O in *. rewrite !drop_0 in *.
  fold (len (items n)) in Hrun.
  rewrite Hrun, bind_Ok. cbv beta iota.
  assert (Lb1 : length b1 = length buf) by (destruct Hsame; congruence).
  assert (Hhdr0 : bytes_at b0 0 3 = hdr).
  { rewrite <- Lhdr. apply bytes_at_write_at. unfold len in *. rewrite Lhdr. nia. }
  destruct leaf eqn:Hleaf.
  - exists b1. simpl negb. cbv iota. split; [reflexivity|].
    split; [|split; [exact Henc|discriminate]].
    rewrite (bytes_at_same_outside _ _ _ _ _ _ Hsame); [exact Hhdr0|lia|simpl; lia].
  - simpl negb. cbv iota.
    destruct Hshape as [Hnil|Hlen];
      [apply isLeaf_nil in Hnil; unfold leaf in Hleaf; congruence|].
    destruct (last (childNodes n)) as [lastc|] eqn:Hlast.
    2:{ apply last_None in Hlast. rewrite Hlast in Hlen. unfold len in Hlen.
        simpl in Hlen. lia. }
    rewrite (index_last _ _ Hlast), bind_Ok.
    unfold PutUint64. rewrite put_uint_Ok by (unfold len in *; simpl in *; nia).
    set (b2 := write_at b1 (3 + slot_size false * len (items n)) (le_bytes 8 (uint64 lastc))).
    assert (Hsame2 : same_outside (3 + slot_size false * len (items n))
                       (len buf - 1 - items_size 2 (items n)) b1 b2).
    { apply write_at_same_outside; unfold len in *;
        rewrite ?length_le_bytes; simpl in *; nia. }
    exists b2. split; [reflexivity|]. split; [|split].
    + rewrite (bytes_at_same_outside _ _ _ _ _ _ Hsame2) by (simpl in *; nia).
      rewrite (bytes_at_same_outside _ _ _ _ _ _ Hsame); [exact Hhdr0|lia|simpl; lia].
    + apply (encoded_same_outside _ _ _ _ _ _ _ _ _ Hsame2 Henc); simpl in *; nia.
    + intros _. simpl default.
      replace 8%nat with (length (le_bytes 8 (uint64 lastc)))
        by apply length_le_bytes.
      apply bytes_at_write_at. rewrite length_le_bytes.
      unfold len in *. simpl in *. nia.
Qed.

(** C3, with the fit it needs: for a node whose keys and values are at
    most 255 bytes long, whose child pointers are none or one more than
    its items, and whose slots and cells take fewer bytes than the
    buffer has, on a buffer of at most 65536 bytes, [deserialize] of
    what [serialize] wrote yields the node's items and child page
    numbers. *)
Theorem serialize_deserialize_roundtrip (n : Node) (buf : list byte) :
  len buf <= 65536 ->
  Forall key_value_fit (items n) ->
  Forall is_pgnum (childNodes n) ->
  (childNodes n = [] \/ len (childNodes n) = len (items n) + 1) ->
  slotted_size n < len buf ->
  exists buf' : list byte,
    serialize n buf = Ok buf' /\
    deserialize NewEmptyNode buf' = Ok (mkNode 0 (items n) (childNodes n)).
Proof.
  intros Hpage Hfit Hpg Hshape Hsize.
  destruct (serialize_layout n buf Hshape Hsize) as (b & Hser & Hhdr & Henc & Hlast).
  exists b. split; [exact Hser|].
  unfold slotted_size in Hsize. rewrite (items_size_shift 2 2) in Hsize.
  pose proof (items_size_nonneg 2 (items n) ltac:(lia)) as Hnn.
  assert (HN : 0 <= len (items n)) by (unfold len; lia).
  set (leaf := isLeaf n) in *.
  assert (Hcount : len (items n) < 65536 /\ 0 <= len buf - 1 - items_size 2 (items n)).
  { clear Hlast Henc Hhdr. destruct leaf; lia. }
  destruct Hcount as [Hcount Hr0].
  unfold deserialize.
  assert (H0 : (0 : Z) <= 0) by lia.
  rewrite (bytes_at_head _ _ _ _ _ H0 Hhdr), bind_Ok.
  assert (Hflag : byte_to_Z (byte_of_Z (if leaf then 1 else 0)) = if leaf then 1 else 0).
  { rewrite byte_to_of_Z. destruct leaf; reflexivity. }
  rewrite Hflag.
  pose proof (bytes_at_app_r _ _ _ _ _ H0 Hhdr) as Hcnt.
  rewrite length_le_bytes in Hcnt. change (0 + len [byte_of_Z (if leaf then 1 else 0)]) with 1 in Hcnt.
  assert (Fhdr : (3 <= length b)%nat).
  { pose proof (bytes_at_fits _ _ _ _ Hhdr) as F.
    rewrite length_app, length_le_bytes in F. simpl in F. lia. }
  rewrite (slice_Ok b 1 3) by (unfold len; lia).
  change (take (Z.to_nat (3 - 1)) (drop (Z.to_nat 1) b)) with (bytes_at b 1 2).
  rewrite Hcnt, bind_Ok.
  unfold Uint16. rewrite get_uint_bytes_at by (rewrite ?length_le_bytes; simpl; lia).
  assert (Hwhole : bytes_at (le_bytes 2 (uint16 (len (items n)))) 0 2
                   = le_bytes 2 (uint16 (len (items n)))).
  { unfold bytes_at. change (Z.to_nat 0) with O. rewrite drop_0.
    apply take_ge. rewrite length_le_bytes. lia. }
  rewrite Hwhole, le_uint16_roundtrip, bind_Ok by lia.
  unfold len at 1. rewrite Nat2Z.id.
  assert (Hcs : leaf = false ->
            Forall is_pgnum (childNodes n) /\ (length (items n) <= length (childNodes n))%nat).
  { intros Hnl. split; [exact Hpg|]. destruct Hshape as [Hnil|Hlen].
    - apply isLeaf_nil in Hnil. unfold leaf in Hnl. congruence.
    - unfold len in Hlen. lia. }
  rewrite (deserialize_loop_reads b leaf (items n) (0 + 3) (len buf - 1)
             (childNodes n) NewEmptyNode Henc Hfit Hcs) by lia.
  rewrite bind_Ok. cbv beta iota. cbn [pageNum items childNodes NewEmptyNode app].
  destruct leaf eqn:Hleaf.
  - change (1 =? 0) with false. cbv iota.
    apply isLeaf_nil in Hleaf. rewrite Hleaf. reflexivity.
  - change (0 =? 0) with true. cbv iota.
    specialize (Hlast eq_refl).
    destruct Hshape as [Hnil|Hlen];
      [apply isLeaf_nil in Hnil; unfold leaf in Hleaf; congruence|].
    destruct (last (childNodes n)) as [lastc|] eqn:El.
    2:{ apply last_None in El. rewrite El in Hlen. unfold len in Hlen.
        simpl in Hlen. lia. }
    simpl default in Hlast.
    assert (Hpgl : is_pgnum lastc).
    { rewrite Forall_forall in Hpg. apply Hpg.
      pose proof El as El'. rewrite last_lookup in El'.
      eapply list_elem_of_lookup_2. exact El'. }
    unfold Uint64. rewrite get_uint_bytes_at.
    + replace (0 + 3 + slot_size false * len (items n))
        with (3 + slot_size false * len (items n)) by lia.
      rewrite Hlast, le_uint64_roundtrip by exact Hpgl.
      rewrite bind_Ok. do 2 f_equal.
      rewrite last_lookup in El.
      assert (Hl' : length (childNodes n) = S (length (items n)))
        by (unfold len in Hlen; lia).
      rewrite Hl' in El. simpl in El.
      rewrite <- (take_drop (length (items n)) (childNodes n)) at 2.
      f_equal. rewrite (drop_S _ _ _ El), drop_ge by lia. reflexivity.
    + unfold slot_size. lia.
    + pose proof (bytes_at_fits _ _ _ _ Hlast) as F.
      rewrite length_le_bytes in F.
      replace (0 + 3 + slot_size false * len (items n))
        with (3 + slot_size false * len (items n)) by lia.
      apply F; [reflexivity|lia].
Qed.

(** C3 on the sample node of page 3, written to a page of 4096 bytes. *)
Lemma serialize_deserialize_roundtrip_witness :
  exists buf' : list byte,
    serialize sample_left empty_page = Ok buf' /\
    deserialize NewEmptyNode buf'
    = Ok (mkNode 0 (items sample_left) (childNodes sample_left)).
Proof.
  apply (serialize_deserialize_roundtrip sample_left empty_page).
  - vm_compute. discriminate.
  - repeat constructor; vm_compute; discriminate.
  - repeat constructor; vm_compute; try discriminate; reflexivity.
  - right. reflexivity.
  - vm_compute. reflexivity.
Defined.

(** C3, as stated, fails on a page that the node fills exactly: the
    non-leaf node below has keys and values of at most 255 bytes and one
    more child pointer than items, and no measure of its size exceeds
    the 4096 bytes of the page, yet the trailing child pointer is
    written over the key length of the last cell, and the last item read
    back has an empty key. *)
Lemma roundtrip_fails_on_filled_page :
  Forall key_value_fit (items page_filling_node) /\
  len (childNodes page_filling_node) = len (items page_filling_node) + 1 /\
  nodeSize page_filling_node = Ok 4064 /\
  node_size_spec page_filling_node = 4080 /\
  slotted_size page_filling_node = 4096 /\
  len empty_page = 4096 /\
  exists (buf' : list byte) (n' : Node),
    serialize page_filling_node empty_page = Ok buf' /\
    deserialize NewEmptyNode buf' = Ok n' /\
    (key <$> last (items n')) = Some [] /\
    items n' <> items page_filling_node.
Proof.
  split; [repeat constructor; vm_compute; discriminate|].
  split; [reflexivity|].
  split; [vm_compute; reflexivity|].
  split; [vm_compute; reflexivity|].
  split; [vm_compute; reflexivity|].
  split; [vm_compute; reflexivity|].
  eexists _, _.
  split; [vm_compute; reflexivity|].
  split; [vm_compute; reflexivity|].
  split; [vm_compute; reflexivity|].
  vm_compute. discriminate.
Qed.

Lemma bytes_at_lookup (buf : list byte) (q : Z) (k : nat) (bs : list byte)
    (j : nat) (b : byte) :
  bytes_at buf q k = bs -> bs !! j = Some b ->
  buf !! (Z.to_nat q + j)%nat = Some b.
Proof.
  intros <- H. rewrite lookup_bytes_at in H.
  case_decide; [exact H|discriminate].
Qed.

(** The 16-bit offsets bound the page: on a buffer of 65541 bytes the
    offset of the first cell is 65536, which is stored as 0, and a leaf
    with one item is read back from the header bytes instead of its
    cell. *)
Lemma roundtrip_fails_beyond_64k :
  len long_page = 65541 /\
  exists buf' : list byte,
    serialize node_one_item long_page = Ok buf' /\
    deserialize NewEmptyNode buf' = Ok (mkNode 0 [newItem [x01] []] []).
Proof.
  assert (Hlen : len long_page = 65541).
  { unfold len, long_page. rewrite repeat_length. lia. }
  split; [exact Hlen|].
  destruct (serialize_layout node_one_item long_page) as (b & Hser & Hhdr & Henc & _).
  { left. reflexivity. }
  { rewrite Hlen. reflexivity. }
  exists b. split; [exact Hser|].
  cbn [encoded items node_one_item] in Henc. rewrite Hlen in Henc.
  destruct Henc as (Hslot & _ & _).
  change (bytes_at b 3 2 = [x00; x00]) in Hslot.
  change (bytes_at b 0 3 = [x01; x01; x00]) in Hhdr.
  assert (Hfit : (5 <= length b)%nat).
  { pose proof (bytes_at_fits _ _ _ _ Hslot eq_refl). lia. }
  assert (L0 : b !! O = Some x01) by exact (bytes_at_lookup _ _ _ _ 0 _ Hhdr eq_refl).
  assert (L1 : b !! 1%nat = Some x01) by exact (bytes_at_lookup _ _ _ _ 1 _ Hhdr eq_refl).
  assert (L2 : b !! 2%nat = Some x00) by exact (bytes_at_lookup _ _ _ _ 2 _ Hhdr eq_refl).
  assert (S12 : bytes_at b 1 2 = [x01; x00]).
  { exact (bytes_at_app_r b 0 3 [x01] [x01; x00] ltac:(lia) Hhdr). }
  assert (S11 : bytes_at b 1 1 = [x01]).
  { exact (bytes_at_app_l b 1 2 [x01] [x00] S12). }
  assert (I0 : index b 0 = Ok x01) by (apply index_Ok; [lia|exact L0]).
  assert (I2 : index b 2 = Ok x00) by (apply index_Ok; [lia|exact L2]).
  unfold deserialize. rewrite I0, bind_Ok.
  rewrite (slice_Ok b 1 3) by (unfold len; lia).
  change (take (Z.to_nat (3 - 1)) (drop (Z.to_nat 1) b)) with (bytes_at b 1 2).
  rewrite S12, bind_Ok.
  change (Uint16 [x01; x00] 0) with (Ok 1 : result Z). rewrite bind_Ok.
  change (byte_to_Z x01) with 1. change (Z.to_nat 1) with 1%nat.
  cbn [deserialize_loop]. unfold deserialize_item.
  change (1 =? 0) with false. cbv iota. rewrite bind_Ok. cbv beta iota.
  unfold Uint16. rewrite get_uint_bytes_at by lia.
  change (bytes_at b (0 + 3) 2) with (bytes_at b 3 2).
  rewrite Hslot, bind_Ok.
  change (le_uint [x00; x00]) with 0.
  rewrite I0, bind_Ok.
  change (byte_to_Z x01) with 1.
  change (uint16 (0 + 1)) with 1. change (uint16 (1 + 1)) with 2.
  rewrite (slice_Ok b 1 2) by (unfold len; lia).
  change (take (Z.to_nat (2 - 1)) (drop (Z.to_nat 1) b)) with (bytes_at b 1 1).
  rewrite S11, bind_Ok, I2, bind_Ok.
  change (byte_to_Z x00) with 0.
  change (uint16 (2 + 1)) with 3. change (uint16 (3 + 0)) with 3.
  rewrite (slice_Ok b 3 3) by (unfold len; lia).
  rewrite Z.sub_diag. change (Z.to_nat 0) with O. rewrite take_0.
  reflexivity.
Qed.

(** * Further properties of the node and transaction code *)

(** ** Key comparison and search within a node *)

Lemma byte_to_Z_inj (x y : byte) : byte_to_Z x = byte_to_Z y -> x = y.
Proof.
  intros H. rewrite <- (byte_of_to_Z x), <- (byte_of_to_Z y). now rewrite H.
Qed.

Lemma Compare_range (a : list byte) : forall b : list byte,
  Compare a b = -1 \/ Compare a b = 0 \/ Compare a b = 1.
Proof.
  induction a as [|x a IH]; intros [|y b]; simpl; auto.
  destruct (byte_to_Z x <? byte_to_Z y); auto.
  destruct (byte_to_Z y <? byte_to_Z x); auto.
Qed.

Lemma Compare_eq_iff (a : list byte) : forall b : list byte,
  Compare a b = 0 <-> a = b.
Proof.
  induction a as [|x a IH]; intros [|y b]; simpl; split; try discriminate; auto.
  - destruct (byte_to_Z x <? byte_to_Z y) eqn:E1; [discriminate|].
    destruct (byte_to_Z y <? byte_to_Z x) eqn:E2; [discriminate|].
    apply Z.ltb_ge in E1, E2. intros H. apply IH in H. subst b.
    f_equal. apply byte_to_Z_inj. lia.
  - intros [= -> ->]. rewrite Z.ltb_irrefl. now apply IH.
Qed.

Lemma Compare_flip (a : list byte) : forall b : list byte,
  Compare a b = 1 <-> Compare b a = -1.
Proof.
  induction a as [|x a IH]; intros [|y b]; simpl; split; try discriminate; auto.
  - destruct (byte_to_Z x <? byte_to_Z y) eqn:E1; [discriminate|].
    destruct (byte_to_Z y <? byte_to_Z x) eqn:E2; [reflexivity|].
    apply IH.
  - destruct (byte_to_Z y <? byte_to_Z x) eqn:E2.
    + apply Z.ltb_lt in E2.
      replace (byte_to_Z x <? byte_to_Z y) with false
        by (symmetry; apply Z.ltb_ge; lia).
      reflexivity.
    + destruct (byte_to_Z x <? byte_to_Z y) eqn:E1; [discriminate|].
      apply IH.
Qed.

Lemma Compare_lt_trans (a : list byte) : forall b c : list byte,
  Compare a b = -1 -> Compare b c = -1 -> Compare a c = -1.
Proof.
  induction a as [|x a IH]; intros [|y b] [|z c]; simpl; try discriminate; auto.
  destruct (byte_to_Z x <? byte_to_Z y) eqn:E1.
  - intros _. apply Z.ltb_lt in E1.
    destruct (byte_to_Z y <? byte_to_Z z) eqn:E2.
    + apply Z.ltb_lt in E2.
      replace (byte_to_Z x <? byte_to_Z z) with true
        by (symmetry; apply Z.ltb_lt; lia).
      reflexivity.
    + destruct (byte_to_Z z <? byte_to_Z y) eqn:E3; [discriminate|].
      apply Z.ltb_ge in E2, E3.
      replace (byte_to_Z x <? byte_to_Z z) with true
        by (symmetry; apply Z.ltb_lt; lia).
      reflexivity.
  - destruct (byte_to_Z y <? byte_to_Z x) eqn:E1'; [discriminate|].
    apply Z.ltb_ge in E1, E1'. intros Hab.
    destruct (byte_to_Z y <? byte_to_Z z) eqn:E2.
    + apply Z.ltb_lt in E2.
      replace (byte_to_Z x <? byte_to_Z z) with true
        by (symmetry; apply Z.ltb_lt; lia).
      reflexivity.
    + destruct (byte_to_Z z <? byte_to_Z y) eqn:E3; [discriminate|].
      apply Z.ltb_ge in E2, E3. intros Hbc.
      replace (byte_to_Z x <? byte_to_Z z) with false
        by (symmetry; apply Z.ltb_ge; lia).
      replace (byte_to_Z z <? byte_to_Z x) with false
        by (symmetry; apply Z.ltb_ge; lia).
      eapply IH; eauto.
Qed.

Lemma Compare_refl (a : list byte) : Compare a a = 0.
Proof. now apply Compare_eq_iff. Qed.

(** What the scan of [findKeyInNode] has seen when it stops at [j]. *)
Lemma findKeyInNode_loop_stops (its : list Item) (k : list byte) :
  forall (i : Z) (found : bool) (j : Z),
  findKeyInNode_loop its k i = (found, j) ->
  i <= j <= i + len its /\
  (forall (m : nat) (it : Item),
     Z.of_nat m < j - i -> its !! m = Some it -> Compare (key it) k = -1) /\
  (found = true ->
   exists it, its !! Z.to_nat (j - i) = Some it /\ key it = k) /\
  (found = false ->
   j = i + len its \/
   exists it, its !! Z.to_nat (j - i) = Some it /\ Compare (key it) k = 1).
Proof.
  induction its as [|it0 its IH]; intros i found j; simpl.
  - intros [= <- <-]. unfold len. simpl. split; [lia|]. split; [|split].
    + intros m it Hm. lia.
    + discriminate.
    + intros _. left. lia.
  - assert (Hl : len (it0 :: its) = len its + 1) by (unfold len; simpl length; lia).
    rewrite Hl. assert (Hn : 0 <= len its) by (unfold len; lia).
    destruct (Compare (key it0) k =? 0) eqn:E0.
    + intros [= <- <-]. apply Z.eqb_eq, Compare_eq_iff in E0.
      rewrite Z.sub_diag. split; [lia|]. split; [|split].
      * intros m it Hm. lia.
      * intros _. exists it0. auto.
      * discriminate.
    + destruct (Compare (key it0) k =? 1) eqn:E1.
      * intros [= <- <-]. apply Z.eqb_eq in E1.
        rewrite Z.sub_diag. split; [lia|]. split; [|split].
        -- intros m it Hm. lia.
        -- discriminate.
        -- intros _. right. exists it0. auto.
      * intros H. apply IH in H as (Hr & Hbefore & Hfound & Hmiss).
        apply Z.eqb_neq in E0, E1.
        assert (Hlt : Compare (key it0) k = -1)
          by (destruct (Compare_range (key it0) k) as [?|[?|?]]; congruence).
        assert (Hidx : Z.to_nat (j - i) = S (Z.to_nat (j - (i + 1)))) by lia.
        split; [lia|]. split; [|split].
        -- intros [|m] it Hm; simpl.
           ++ intros [= <-]. exact Hlt.
           ++ apply Hbefore. lia.
        -- intros Hf. rewrite Hidx. simpl. auto.
        -- intros Hf. rewrite Hidx. simpl.
           destruct (Hmiss Hf) as [->|?]; [left; lia|right; auto].
Qed.

Lemma findKeyInNode_loop_finds (its : list Item) : forall (i : Z) (j : nat) (it : Item),
  ascending its -> its !! j = Some it ->
  findKeyInNode_loop its (key it) i = (true, i + Z.of_nat j).
Proof.
  induction its as [|it0 its IH]; intros i j it Hasc Hj; [discriminate|].
  destruct Hasc as [Hall Hasc]. destruct j as [|j]; simpl in *.
  - injection Hj as ->. rewrite Compare_refl. simpl. f_equal. lia.
  - assert (Hlt : Compare (key it0) (key it) = -1).
    { rewrite Forall_forall in Hall. apply Hall.
      eapply list_elem_of_lookup_2. exact Hj. }
    rewrite Hlt. simpl. rewrite (IH (i + 1) j it Hasc Hj). f_equal. lia.
Qed.

(** X1. [findKeyInNode] stops at the first item whose key is not less
    than the searched key: every item before the returned index has a
    smaller key; when it reports success the item at the index has the
    key; otherwise the index is the item count or the item there has a
    larger key. *)
Theorem findKeyInNode_sound (n : Node) (k : list byte) :
  0 <= (findKeyInNode n k).2 <= len (items n) /\
  (forall (m : nat) (it : Item),
     Z.of_nat m < (findKeyInNode n k).2 -> items n !! m = Some it ->
     Compare (key it) k = -1) /\
  (if (findKeyInNode n k).1
   then exists it, items n !! Z.to_nat (findKeyInNode n k).2 = Some it /\ key it = k
   else (findKeyInNode n k).2 = len (items n) \/
        exists it, items n !! Z.to_nat (findKeyInNode n k).2 = Some it /\
                   Compare (key it) k = 1).
Proof.
  unfold findKeyInNode.
  destruct (findKeyInNode_loop (items n) k 0) as [found j] eqn:E.
  apply findKeyInNode_loop_stops in E as (Hr & Hbefore & Hfound & Hmiss).
  rewrite Z.sub_0_r in *. simpl. split; [lia|]. split; [exact Hbefore|].
  destruct found; [apply Hfound|apply Hmiss]; reflexivity.
Qed.

(** X2. In a node whose items are in strictly ascending key order,
    looking up the key of the item at position [j] succeeds with index
    [j]. *)
Theorem findKeyInNode_finds_stored (n : Node) (j : nat) (it : Item) :
  ascending (items n) -> items n !! j = Some it ->
  findKeyInNode n (key it) = (true, Z.of_nat j).
Proof.
  intros Hasc Hj. unfold findKeyInNode.
  now rewrite (findKeyInNode_loop_finds _ 0 j it Hasc Hj).
Qed.

(** X2 on the sample node of page 3. *)
Lemma findKeyInNode_finds_stored_witness :
  findKeyInNode sample_left ["3"%byte] = (true, 1).
Proof.
  apply (findKeyInNode_finds_stored sample_left 1 (item1 "3"%byte)).
  - repeat constructor.
  - reflexivity.
Defined.

(** ** Insertion into and removal from a node *)

Lemma ascending_app (a b : list Item) :
  ascending (a ++ b) <->
  ascending a /\ ascending b /\ Forall (fun y => Forall (key_lt y) b) a.
Proof.
  induction a as [|x a IH]; simpl.
  - split; [intros H; auto|intros (_ & H & _); exact H].
  - rewrite Forall_app, IH, Forall_cons. tauto.
Qed.

Lemma ascending_lookup_lt (its : list Item) : forall (a b : nat) (x y : Item),
  ascending its -> its !! a = Some x -> its !! b = Some y -> (a < b)%nat ->
  key_lt x y.
Proof.
  induction its as [|it its IH]; intros a b x y Hasc Ha Hb Hab; [discriminate|].
  destruct Hasc as [Hall Hasc]. destruct b as [|b]; [lia|].
  destruct a as [|a]; simpl in *.
  - injection Ha as ->. rewrite Forall_forall in Hall. apply Hall.
    eapply list_elem_of_lookup_2. exact Hb.
  - eapply IH; eauto. lia.
Qed.

Lemma key_lt_trans (x y z : Item) : key_lt x y -> key_lt y z -> key_lt x z.
Proof. unfold key_lt. apply Compare_lt_trans. Qed.

Lemma take_drop_lookup_split {A} (s : list A) (i : nat) :
  s = take i s ++ drop i s.
Proof. symmetry. apply take_drop. Qed.

(** Inserting an item at the position the search reports keeps the
    order. *)
Lemma ascending_insert (its : list Item) (item : Item) (i : Z) :
  ascending its ->
  findKeyInNode_loop its (key item) 0 = (false, i) ->
  0 <= i <= len its /\
  ascending (take (Z.to_nat i) its ++ item :: drop (Z.to_nat i) its).
Proof.
  intros Hasc Hfind.
  apply findKeyInNode_loop_stops in Hfind as (Hr & Hbefore & _ & Hmiss).
  rewrite Z.sub_0_r, Z.add_0_l in *. split; [lia|].
  specialize (Hmiss eq_refl).
  rewrite (take_drop_lookup_split its (Z.to_nat i)) in Hasc.
  apply ascending_app in Hasc as (Ht & Hd & Hcross).
  assert (Hafter : Forall (key_lt item) (drop (Z.to_nat i) its)).
  { destruct Hmiss as [->|(it & Hit & Hgt)].
    - unfold len. rewrite Nat2Z.id, drop_all. constructor.
    - rewrite (drop_S _ _ _ Hit) in *. destruct Hd as [Hall _].
      apply Compare_flip in Hgt. constructor; [exact Hgt|].
      eapply Forall_impl; [exact Hall|]. intros z Hz.
      eapply key_lt_trans; [exact Hgt|exact Hz]. }
  apply ascending_app. split; [exact Ht|]. split; [split; assumption|].
  rewrite Forall_forall in *. intros y Hy.
  constructor; [|apply Hcross; exact Hy].
  apply list_elem_of_lookup in Hy as [m Hm].
  apply lookup_take_Some in Hm as [Hm Hlt].
  apply (Hbefore m y); [lia|exact Hm].
Qed.

(** X3. Inserting a new item with [addItem] at the index that
    [findKeyInNode] reports for its key keeps the items of an ascending
    node in strictly ascending order, and the key is then found at that
    index. *)
Theorem addItem_at_found_index (n : Node) (item : Item) (i : Z) :
  ascending (items n) ->
  findKeyInNode n (key item) = (false, i) ->
  exists n' : Node,
    addItem n item i = Ok (n', i) /\
    items n' = take (Z.to_nat i) (items n) ++ item :: drop (Z.to_nat i) (items n) /\
    ascending (items n') /\
    findKeyInNode n' (key item) = (true, i).
Proof.
  intros Hasc Hfind. unfold findKeyInNode in Hfind.
  destruct (ascending_insert _ _ _ Hasc Hfind) as [Hi Hasc'].
  eexists. split; [apply addItem_inserts; exact Hi|].
  split; [reflexivity|]. split; [exact Hasc'|].
  unfold findKeyInNode. cbn [items set_items].
  rewrite (findKeyInNode_loop_finds _ 0 (Z.to_nat i) item Hasc').
  - f_equal. lia.
  - rewrite lookup_app_r by (rewrite length_take; unfold len in Hi; lia).
    rewrite length_take, Nat.min_l by (unfold len in Hi; lia).
    now rewrite Nat.sub_diag.
Qed.

(** X3 on the sample node of page 3 and the key 2. *)
Lemma addItem_at_found_index_witness :
  exists n' : Node,
    addItem sample_left (item1 "2"%byte) 1 = Ok (n', 1) /\
    items n' = [item1 "1"%byte; item1 "2"%byte; item1 "3"%byte] /\
    ascending (items n') /\
    findKeyInNode n' ["2"%byte] = (true, 1).
Proof.
  apply (addItem_at_found_index sample_left (item1 "2"%byte) 1).
  - repeat constructor.
  - reflexivity.
Defined.

Lemma removeItemFromLeaf_items (d : dal) (n : Node) (j : Z) :
  0 <= j < len (items n) ->
  exists d' : dal,
    removeItemFromLeaf d n j
    = Ok (d', set_items n (take (Z.to_nat j) (items n) ++ drop (S (Z.to_nat j)) (items n))).
Proof.
  intros Hj. unfold removeItemFromLeaf.
  rewrite slice_to_Ok by lia. rewrite bind_Ok.
  rewrite slice_from_Ok by lia. rewrite bind_Ok.
  replace (Z.to_nat (j + 1)) with (S (Z.to_nat j)) by lia.
  eexists. reflexivity.
Qed.

(** X4. Removing the item at position [j] of an ascending leaf with
    [removeItemFromLeaf] splices it out, keeps the remaining items in
    ascending order, and its key is no longer found in the node. *)
Theorem removeItemFromLeaf_removes_key (d : dal) (n : Node) (j : nat) (it : Item) :
  ascending (items n) -> items n !! j = Some it ->
  exists (d' : dal) (n' : Node),
    removeItemFromLeaf d n (Z.of_nat j) = Ok (d', n') /\
    items n' = take j (items n) ++ drop (S j) (items n) /\
    ascending (items n') /\
    (findKeyInNode n' (key it)).1 = false.
Proof.
  intros Hasc Hj. apply lookup_lt_Some in Hj as Hlt.
  destruct (removeItemFromLeaf_items d n (Z.of_nat j)) as [d' Hrun];
    [unfold len; lia|].
  rewrite Nat2Z.id in Hrun. eexists _, _. split; [exact Hrun|].
  cbn [items set_items]. split; [reflexivity|].
  assert (Hasc' : ascending (take j (items n) ++ drop (S j) (items n))).
  { pose proof Hasc as H. rewrite (take_drop_lookup_split (items n) j) in H.
    rewrite (drop_S _ _ _ Hj) in H.
    apply ascending_app in H as (Ht & [_ Hd] & Hcross).
    apply ascending_app. split; [exact Ht|]. split; [exact Hd|].
    eapply Forall_impl; [exact Hcross|]. intros y Hy.
    now apply Forall_cons in Hy as [_ Hy]. }
  split; [exact Hasc'|].
  unfold findKeyInNode. cbn [items set_items].
  destruct (findKeyInNode_loop _ (key it) 0) as [found i] eqn:E. simpl.
  destruct found; [|reflexivity].
  apply findKeyInNode_loop_stops in E as (_ & _ & Hres & _).
  destruct (Hres eq_refl) as (it' & Hit' & Hkey).
  rewrite Z.sub_0_r in Hit'.
  assert (Hne : Compare (key it') (key it) <> 0 ).
  { destruct (decide (Z.to_nat i < j)%nat) as [Hl|Hg].
    - rewrite lookup_app_l in Hit' by (rewrite length_take; lia).
      rewrite lookup_take_lt in Hit' by lia.
      pose proof (ascending_lookup_lt _ _ _ _ _ Hasc Hit' Hj Hl) as H.
      unfold key_lt in H. lia.
    - rewrite lookup_app_r in Hit' by (rewrite length_take; lia).
      rewrite length_take, Nat.min_l, lookup_drop in Hit' by lia.
      assert (Hjl : (j < S j + (Z.to_nat i - j))%nat) by lia.
      pose proof (ascending_lookup_lt _ _ _ _ _ Hasc Hj Hit' Hjl) as H.
      unfold key_lt in H. apply Compare_flip in H.
      intros H0. rewrite H0 in H. discriminate. }
  exfalso. apply Hne. now apply Compare_eq_iff.
Qed.

(** X4 on the sample node of page 3. *)
Lemma removeItemFromLeaf_removes_key_witness :
  exists (d' : dal) (n' : Node),
    removeItemFromLeaf sample_dal sample_left 0 = Ok (d', n') /\
    items n' = [item1 "3"%byte] /\
    ascending (items n') /\
    (findKeyInNode n' ["1"%byte]).1 = false.
Proof.
  apply (removeItemFromLeaf_removes_key sample_dal sample_left 0 (item1 "1"%byte)).
  - repeat constructor.
  - reflexivity.
Defined.

(** X5. [removeItemFromLeaf] at the index at which [addItem] has just
    inserted gives the node its items back. *)
Theorem removeItemFromLeaf_undoes_addItem (d : dal) (n : Node) (item : Item) (i : Z) :
  0 <= i <= len (items n) ->
  exists (n1 : Node) (d' : dal) (n2 : Node),
    addItem n item i = Ok (n1, i) /\
    len (items n1) = len (items n) + 1 /\
    removeItemFromLeaf d n1 i = Ok (d', n2) /\
    items n2 = items n.
Proof.
  intros Hi. rewrite addItem_inserts by exact Hi.
  set (its1 := take (Z.to_nat i) (items n) ++ item :: drop (Z.to_nat i) (items n)).
  assert (Hlen : len its1 = len (items n) + 1).
  { unfold len, its1 in *. rewrite length_app, length_take. simpl length.
    rewrite length_drop. lia. }
  destruct (removeItemFromLeaf_items d (set_items n its1) i) as [d' Hrun].
  { cbn [items set_items]. lia. }
  eexists _, d', _. split; [reflexivity|]. split; [exact Hlen|].
  split; [exact Hrun|]. cbn [items set_items]. unfold its1.
  unfold len in Hi.
  rewrite take_app_le by (rewrite length_take; lia).
  rewrite take_take, Nat.min_id.
  rewrite drop_app_ge by (rewrite length_take; lia).
  rewrite length_take, Nat.min_l by lia.
  replace (S (Z.to_nat i) - Z.to_nat i)%nat with 1%nat by lia.
  change (drop 1 (item :: drop (Z.to_nat i) (items n)))
    with (drop (Z.to_nat i) (items n)).
  apply take_drop.
Qed.

(** X5 on the sample node of page 3. *)
Lemma removeItemFromLeaf_undoes_addItem_witness :
  exists (n1 : Node) (d' : dal) (n2 : Node),
    addItem sample_left (item1 "2"%byte) 1 = Ok (n1, 1) /\
    len (items n1) = len (items sample_left) + 1 /\
    removeItemFromLeaf sample_dal n1 1 = Ok (d', n2) /\
    items n2 = items sample_left.
Proof.
  apply (removeItemFromLeaf_undoes_addItem sample_dal sample_left (item1 "2"%byte) 1).
  unfold len. simpl. lia.
Defined.

Lemma items_size_app (o : Z) (a b : list Item) :
  items_size o (a ++ b) = items_size o a + items_size o b.
Proof.
  induction a as [|x a IH]; [reflexivity|].
  cbn [app items_size foldr]. fold (items_size o (a ++ b)). fold (items_size o a).
  rewrite IH. lia.
Qed.

Lemma nodeSize_sum (n : Node) :
  nodeSize n = Ok (nodeHeaderSize + items_size pageNumSize (items n) + pageNumSize).
Proof.
  unfold nodeSize. rewrite nodeSize_loop_sum by (simpl; lia). reflexivity.
Qed.

(** X6. Adding an item with [addItem] raises [nodeSize] by the item's
    key length plus its value length plus 8. *)
Theorem nodeSize_addItem (n : Node) (item : Item) (i : Z) :
  0 <= i <= len (items n) ->
  exists (n' : Node) (size : Z),
    addItem n item i = Ok (n', i) /\
    nodeSize n = Ok size /\
    nodeSize n' = Ok (size + len (key item) + len (value item) + 8).
Proof.
  intros Hi. rewrite addItem_inserts by exact Hi.
  eexists _, _. split; [reflexivity|]. rewrite !nodeSize_sum.
  split; [reflexivity|]. cbn [items set_items]. f_equal.
  rewrite items_size_app.
  rewrite <- (take_drop (Z.to_nat i) (items n)) at 3.
  rewrite items_size_app. simpl. unfold pageNumSize. lia.
Qed.

(** X6 on the sample node of page 3. *)
Lemma nodeSize_addItem_witness :
  exists (n' : Node) (size : Z),
    addItem sample_left (item1 "2"%byte) 1 = Ok (n', 1) /\
    nodeSize sample_left = Ok size /\
    nodeSize n' = Ok (size + len (key (item1 "2"%byte)) + len (value (item1 "2"%byte)) + 8).
Proof.
  apply (nodeSize_addItem sample_left (item1 "2"%byte) 1).
  unfold len. simpl. lia.
Defined.

(** ** Rotations *)

Lemma slice_inv {A} (s : list A) (lo hi : Z) (r : list A) :
  slice s lo hi = Ok r ->
  0 <= lo <= hi /\ hi <= len s /\ r = take (Z.to_nat (hi - lo)) (drop (Z.to_nat lo) s).
Proof.
  unfold slice, len.
  destruct (0 <=? lo) eqn:E0; simpl; [|discriminate].
  destruct (lo <=? hi) eqn:E1; simpl; [|discriminate].
  destruct (hi <=? Z.of_nat (length s)) eqn:E2; simpl; [|discriminate].
  apply Z.leb_le in E0, E1, E2. intros [= <-]. auto.
Qed.

Lemma assign_inv {A} (s : list A) (i : Z) (a : A) (r : list A) :
  assign s i a = Ok r -> 0 <= i < len s /\ r = <[Z.to_nat i := a]> s.
Proof.
  unfold assign, len.
  destruct (0 <=? i) eqn:E0; simpl; [|discriminate].
  destruct (i <? Z.of_nat (length s)) eqn:E1; simpl; [|discriminate].
  apply Z.leb_le in E0. apply Z.ltb_lt in E1. intros [= <-]. auto.
Qed.

Lemma index_last_inv {A} (s : list A) (x : A) :
  index s (len s - 1) = Ok x -> last s = Some x /\ s = take (length s - 1) s ++ [x].
Proof.
  intros H. apply index_inv in H as [Hr Hl]. unfold len in *.
  replace (Z.to_nat (Z.of_nat (length s) - 1)) with (pred (length s)) in Hl by lia.
  split; [now rewrite last_lookup|].
  rewrite <- (take_drop (length s - 1) s) at 1. f_equal.
  replace (length s - 1)%nat with (pred (length s)) by lia.
  rewrite (drop_S _ _ _ Hl), drop_ge by lia. reflexivity.
Qed.

Ltac bind_inv H :=
  match type of H with
  | (mbind _ ?m = Ok _) =>
      let E := fresh "E" in
      destruct m eqn:E; [rewrite bind_Ok in H|discriminate H|discriminate H]
  end.

(** Whenever [rotateRight] returns, it has moved the last item of the
    left node up and the separator down. *)
Lemma rotateRight_inv (l r p l' r' p' : Node) (ri : Z) :
  rotateRight l r p ri = Ok (l', r', p') ->
  exists (x sep : Item),
    0 <= ri - 1 /\
    items l = take (length (items l) - 1) (items l) ++ [x] /\
    items p !! Z.to_nat (ri - 1) = Some sep /\
    l' = mkNode (pageNum l) (take (length (items l) - 1) (items l))
                (take (length (childNodes l) - 1) (childNodes l)) /\
    r' = mkNode (pageNum r) (sep :: items r)
                (match last (childNodes l) with
                 | Some c => c :: childNodes r
                 | None => childNodes r
                 end) /\
    p' = mkNode (pageNum p) (<[Z.to_nat (ri - 1) := x]> (items p)) (childNodes p).
Proof.
  unfold rotateRight. intros H.
  bind_inv H. bind_inv H. cbv zeta in H.
  assert (Hidx : (if isFirst (ri - 1) then 0 else ri - 1) = ri - 1).
  { unfold isFirst. destruct (ri - 1 =? 0) eqn:E1; [|reflexivity].
    apply Z.eqb_eq in E1. lia. }
  rewrite Hidx in H. bind_inv H. bind_inv H.
  apply index_last_inv in E as [Hlast Hsplit].
  apply slice_inv in E0 as (_ & _ & ->).
  apply index_inv in E1 as [Hr Hsep].
  apply assign_inv in E2 as [_ ->].
  exists a, a1. split; [lia|]. split; [exact Hsplit|]. split; [exact Hsep|].
  assert (Htake : take (Z.to_nat (len (items l) - 1 - 0)) (drop (Z.to_nat 0) (items l))
                  = take (length (items l) - 1) (items l)).
  { change (Z.to_nat 0) with O. rewrite drop_0. f_equal. unfold len. lia. }
  rewrite Htake in H.
  unfold isLeaf, set_items in H. cbn [childNodes] in H.
  fold (set_items l (take (length (items l) - 1) (items l))) in H.
  destruct (len (childNodes l) =? 0) eqn:Eleaf; cbn [negb] in H.
  - injection H as <- <- <-. apply Z.eqb_eq in Eleaf. unfold len in Eleaf.
    destruct (childNodes l) eqn:Ecs; [|simpl in Eleaf; lia].
    unfold set_items, set_childNodes. cbn [pageNum items childNodes].
    rewrite Ecs. auto.
  - bind_inv H. bind_inv H. injection H as <- <- <-.
    apply index_last_inv in E as [Hlc _].
    apply slice_inv in E0 as (_ & _ & ->).
    rewrite Hlc. unfold set_items, set_childNodes. cbn [pageNum items childNodes].
    change (Z.to_nat 0) with O. rewrite drop_0.
    replace (Z.to_nat (len (childNodes l) - 1 - 0)) with (length (childNodes l) - 1)%nat
      by (unfold len; lia).
    auto.
Qed.

(** X7. Whenever [rotateRight] returns, the in-order sequence of items
    (left items, separator, right items) and the sequence of child
    pointers of the two siblings are what they were; the parent changes
    only in the separator, and no page number changes. *)
Theorem rotateRight_keeps_order (l r p l' r' p' : Node) (ri : Z) :
  rotateRight l r p ri = Ok (l', r', p') ->
  exists (sep sep' : Item),
    items p !! Z.to_nat (ri - 1) = Some sep /\
    items p' = <[Z.to_nat (ri - 1) := sep']> (items p) /\
    items l' ++ sep' :: items r' = items l ++ sep :: items r /\
    childNodes l' ++ childNodes r' = childNodes l ++ childNodes r /\
    childNodes p' = childNodes p /\
    (pageNum l', pageNum r', pageNum p') = (pageNum l, pageNum r, pageNum p).
Proof.
  intros H. apply rotateRight_inv in H
    as (x & sep & H0 & Hsplit & Hsep & -> & -> & ->).
  exists sep, x. cbn [items childNodes pageNum].
  split; [exact Hsep|]. split; [reflexivity|]. split; [|split; [|auto]].
  - rewrite Hsplit at 3. rewrite <- app_assoc. reflexivity.
  - destruct (last (childNodes l)) as [c|] eqn:El.
    + rewrite last_lookup in El.
      assert (Hlt : (pred (length (childNodes l)) < length (childNodes l))%nat)
        by (apply lookup_lt_Some in El; exact El).
      rewrite <- (take_drop (length (childNodes l) - 1) (childNodes l)) at 3.
      replace (length (childNodes l) - 1)%nat with (pred (length (childNodes l))) by lia.
      rewrite (drop_S _ _ _ El), drop_ge by lia.
      rewrite <- app_assoc. reflexivity.
    + apply last_None in El. rewrite El. reflexivity.
Qed.

(** X7 on a rotation between two leaves. *)
Lemma rotateRight_keeps_order_witness :
  exists (sep sep' : Item),
    items (mkNode 3 [item1 "2"%byte] [5; 6]) !! Z.to_nat (1 - 1) = Some sep /\
    [item1 "1"%byte] = <[Z.to_nat (1 - 1) := sep']> [item1 "2"%byte] /\
    [item1 "0"%byte] ++ sep' :: [item1 "2"%byte]
      = [item1 "0"%byte; item1 "1"%byte] ++ sep :: [] /\
    ([] : list pgnum) ++ [] = [] ++ [] /\
    [5; 6] = [5; 6] /\
    (5, 6, 3) = (5, 6, 3).
Proof.
  apply (rotateRight_keeps_order
           (mkNode 5 [item1 "0"%byte; item1 "1"%byte] []) (mkNode 6 [] [])
           (mkNode 3 [item1 "2"%byte] [5; 6])
           (mkNode 5 [item1 "0"%byte] []) (mkNode 6 [item1 "2"%byte] [])
           (mkNode 3 [item1 "1"%byte] [5; 6]) 1).
  reflexivity.
Defined.

Lemma rotateLeft_runs (l r p : Node) (ri : Z) (x sep : Item) (rits : list Item) :
  items r = x :: rits ->
  0 <= (if isLast ri p then len (items p) - 1 else ri) ->
  items p !! Z.to_nat (if isLast ri p then len (items p) - 1 else ri) = Some sep ->
  rotateLeft l r p ri
  = Ok (mkNode (pageNum l) (items l ++ [sep]) (childNodes l ++ take 1 (childNodes r)),
        mkNode (pageNum r) rits (drop 1 (childNodes r)),
        mkNode (pageNum p)
               (<[Z.to_nat (if isLast ri p then len (items p) - 1 else ri) := x]> (items p))
               (childNodes p)).
Proof.
  intros Hr Hk Hsep.
  set (k := if isLast ri p then len (items p) - 1 else ri) in *.
  apply lookup_lt_Some in Hsep as Hlt.
  assert (Hlr : len (items r) = len rits + 1)
    by (rewrite Hr; unfold len; simpl length; lia).
  assert (Hnr : 0 <= len rits) by (unfold len; lia).
  assert (H00 : (0 : Z) <= 0) by lia.
  assert (Hx : items r !! Z.to_nat 0 = Some x) by (rewrite Hr; reflexivity).
  unfold rotateLeft.
  rewrite (index_Ok (items r) 0 x H00 Hx), bind_Ok.
  rewrite slice_from_Ok by lia.
  rewrite bind_Ok. cbv zeta. fold k.
  rewrite (index_Ok _ _ _ Hk Hsep), bind_Ok.
  rewrite assign_Ok by (unfold len; lia). rewrite bind_Ok.
  change (Z.to_nat 1) with 1%nat. rewrite Hr. change (drop 1 (x :: rits)) with rits.
  unfold isLeaf, set_items. cbn [childNodes].
  destruct (len (childNodes r) =? 0) eqn:Eleaf; cbn [negb].
  - apply Z.eqb_eq in Eleaf. unfold len in Eleaf.
    destruct (childNodes r) eqn:Ecs; [|simpl in Eleaf; lia].
    rewrite app_nil_r. destruct l; reflexivity.
  - apply Z.eqb_neq in Eleaf. unfold len in Eleaf.
    destruct (childNodes r) as [|c cs] eqn:Ecs; [simpl in Eleaf; lia|].
    assert (Hc : (c :: cs) !! Z.to_nat 0 = Some c) by reflexivity.
    rewrite (index_Ok (c :: cs) 0 c H00 Hc), bind_Ok.
    rewrite slice_from_Ok by (unfold len; simpl length; lia).
    rewrite bind_Ok. reflexivity.
Qed.

(** X8. [rotateLeft] takes the first item [x] of the right node,
    replaces the parent's separator at [rightNodeIndex] (the last
    separator when the index equals the item count) by [x], appends the
    old separator to the left node's items, and moves the right node's
    first child pointer, if it has one, to the end of the left node's
    child pointers; nothing else changes, so the in-order sequence of
    items is kept. *)
Theorem rotateLeft_spec (l r p : Node) (ri : Z) (x sep : Item) (rits : list Item) :
  items r = x :: rits ->
  0 <= (if isLast ri p then len (items p) - 1 else ri) ->
  items p !! Z.to_nat (if isLast ri p then len (items p) - 1 else ri) = Some sep ->
  rotateLeft l r p ri
  = Ok (mkNode (pageNum l) (items l ++ [sep]) (childNodes l ++ take 1 (childNodes r)),
        mkNode (pageNum r) rits (drop 1 (childNodes r)),
        mkNode (pageNum p)
               (<[Z.to_nat (if isLast ri p then len (items p) - 1 else ri) := x]> (items p))
               (childNodes p)) /\
  (items l ++ [sep]) ++ x :: rits = items l ++ sep :: items r.
Proof.
  intros Hr Hk Hsep. split; [|rewrite Hr, <- app_assoc; reflexivity].
  now apply rotateLeft_runs.
Qed.

(** X8 on a rotation between two leaves. *)
Lemma rotateLeft_spec_witness :
  rotateLeft (mkNode 5 [] []) (mkNode 6 [item1 "1"%byte; item1 "2"%byte] [])
             (mkNode 3 [item1 "0"%byte] [5; 6]) 0
  = Ok (mkNode 5 [item1 "0"%byte] [],
        mkNode 6 [item1 "2"%byte] [],
        mkNode 3 [item1 "1"%byte] [5; 6]) /\
  ([] ++ [item1 "0"%byte]) ++ item1 "1"%byte :: [item1 "2"%byte]
  = [] ++ item1 "0"%byte :: [item1 "1"%byte; item1 "2"%byte].
Proof.
  apply (rotateLeft_spec (mkNode 5 [] [])
           (mkNode 6 [item1 "1"%byte; item1 "2"%byte] [])
           (mkNode 3 [item1 "0"%byte] [5; 6]) 0
           (item1 "1"%byte) (item1 "0"%byte) [item1 "2"%byte]).
  - reflexivity.
  - vm_compute. discriminate.
  - reflexivity.
Defined.

Lemma rotateRight_runs (l r p : Node) (ri : Z) (x sep : Item) :
  1 <= ri ->
  last (items l) = Some x ->
  items p !! Z.to_nat (ri - 1) = Some sep ->
  rotateRight l r p ri
  = Ok (mkNode (pageNum l) (take (length (items l) - 1) (items l))
               (take (length (childNodes l) - 1) (childNodes l)),
        mkNode (pageNum r) (sep :: items r)
               (match last (childNodes l) with
                | Some c => c :: childNodes r
                | None => childNodes r
                end),
        mkNode (pageNum p) (<[Z.to_nat (ri - 1) := x]> (items p)) (childNodes p)).
Proof.
  intros Hri Hx Hsep.
  assert (Hne : items l <> []) by (intros E; rewrite E in Hx; discriminate).
  apply lookup_lt_Some in Hsep as Hlt.
  unfold rotateRight.
  rewrite (index_last _ _ Hx), bind_Ok.
  rewrite (slice_to_last _ Hne), bind_Ok. cbv zeta.
  assert (Hidx : (if isFirst (ri - 1) then 0 else ri - 1) = ri - 1).
  { unfold isFirst. destruct (ri - 1 =? 0) eqn:E; [|reflexivity].
    apply Z.eqb_eq in E. lia. }
  rewrite Hidx.
  assert (H0 : 0 <= ri - 1) by lia.
  rewrite (index_Ok _ _ _ H0 Hsep), bind_Ok.
  rewrite assign_Ok by (unfold len; lia). rewrite bind_Ok.
  unfold isLeaf, set_items. cbn [childNodes].
  destruct (len (childNodes l) =? 0) eqn:Eleaf; cbn [negb].
  - apply Z.eqb_eq in Eleaf. unfold len in Eleaf.
    destruct (childNodes l) eqn:Ecs; [|simpl in Eleaf; lia].
    destruct r; reflexivity.
  - apply Z.eqb_neq in Eleaf. unfold len in Eleaf.
    assert (Hcne : childNodes l <> []).
    { intros E. rewrite E in Eleaf. simpl in Eleaf. lia. }
    destruct (last (childNodes l)) as [c|] eqn:Hlast.
    + rewrite (index_last _ _ Hlast), bind_Ok.
      rewrite (slice_to_last _ Hcne), bind_Ok. reflexivity.
    + apply last_None in Hlast. congruence.
Qed.

Lemma take_pred_snoc {A} (s : list A) (x : A) :
  last s = Some x -> take (length s - 1) s ++ [x] = s.
Proof.
  intros H. rewrite last_lookup in H.
  apply lookup_lt_Some in H as Hlt.
  rewrite <- (take_drop (length s - 1) s) at 3. f_equal.
  replace (length s - 1)%nat with (pred (length s)) by lia.
  rewrite (drop_S _ _ _ H), drop_ge by lia. reflexivity.
Qed.

(** X9. [rotateLeft] at the separator's index undoes [rotateRight]: for
    two siblings on the same level, rotating right and then left gives
    the three nodes back. *)
Theorem rotateLeft_undoes_rotateRight (l r p : Node) (ri : Z) (x sep : Item) :
  1 <= ri ->
  last (items l) = Some x ->
  items p !! Z.to_nat (ri - 1) = Some sep ->
  isLeaf l = isLeaf r ->
  exists l' r' p' : Node,
    rotateRight l r p ri = Ok (l', r', p') /\
    rotateLeft l' r' p' (ri - 1) = Ok (l, r, p).
Proof.
  intros Hri Hx Hsep Hlevel.
  rewrite (rotateRight_runs l r p ri x sep Hri Hx Hsep).
  eexists _, _, _. split; [reflexivity|].
  apply lookup_lt_Some in Hsep as Hlt.
  set (l' := mkNode (pageNum l) _ _).
  set (r' := mkNode (pageNum r) _ _).
  set (p' := mkNode (pageNum p) _ _).
  assert (Hnl : (if isLast (ri - 1) p' then len (items p') - 1 else ri - 1) = ri - 1).
  { unfold isLast, p'. cbn [items].
    replace (ri - 1 =? len (<[Z.to_nat (ri - 1):=x]> (items p))) with false; [reflexivity|].
    symmetry. apply Z.eqb_neq. unfold len. rewrite length_insert. lia. }
  rewrite (rotateLeft_runs l' r' p' (ri - 1) sep x (items r)).
  - rewrite Hnl. unfold l', r', p'. cbn [pageNum items childNodes].
    rewrite (take_pred_snoc _ _ Hx).
    rewrite list_insert_insert_eq, (list_insert_id _ _ _ Hsep).
    destruct (last (childNodes l)) as [c|] eqn:El.
    + change (take 1 (c :: childNodes r)) with [c].
      change (drop 1 (c :: childNodes r)) with (childNodes r).
      rewrite (take_pred_snoc _ _ El).
      destruct l, r, p; reflexivity.
    + apply last_None in El.
      assert (Hr : childNodes r = []).
      { apply isLeaf_nil. rewrite <- Hlevel. now apply isLeaf_nil. }
      rewrite El, Hr. simpl.
      destruct l, r, p; simpl in *; subst; reflexivity.
  - reflexivity.
  - rewrite Hnl. lia.
  - rewrite Hnl. unfold p'. cbn [items]. apply list_lookup_insert_eq. lia.
Qed.

(** X9 on two leaves below a parent with one separator. *)
Lemma rotateLeft_undoes_rotateRight_witness :
  exists l' r' p' : Node,
    rotateRight (mkNode 5 [item1 "0"%byte; item1 "1"%byte] []) (mkNode 6 [] [])
                (mkNode 3 [item1 "2"%byte] [5; 6]) 1 = Ok (l', r', p') /\
    rotateLeft l' r' p' (1 - 1)
    = Ok (mkNode 5 [item1 "0"%byte; item1 "1"%byte] [], mkNode 6 [] [],
          mkNode 3 [item1 "2"%byte] [5; 6]).
Proof.
  apply (rotateLeft_undoes_rotateRight
           (mkNode 5 [item1 "0"%byte; item1 "1"%byte] []) (mkNode 6 [] [])
           (mkNode 3 [item1 "2"%byte] [5; 6]) 1 (item1 "1"%byte) (item1 "2"%byte)).
  - lia.
  - reflexivity.
  - reflexivity.
  - reflexivity.
Defined.

(** ** Merge and split *)

Lemma dal_writeNode_nonzero (d : dal) (n : Node) :
  pageNum n <> 0 ->
  dal_writeNode d n = (mkDal (<[pageNum n := n]> (pages d)) (fl d) (meta_root d), n).
Proof.
  intros Hp. unfold dal_writeNode.
  replace (pageNum n =? 0) with false by (symmetry; now apply Z.eqb_neq).
  reflexivity.
Qed.

(** X10. [merge] appends the parent's separator at [bNodeIndex - 1] and
    the items (and, below a non-leaf, the child pointers) of the right
    node to the left sibling read from the store, removes the separator
    and the right node's pointer from the parent, writes the left
    sibling and the parent to their pages and pushes the right node's
    page onto the free-list; the in-order sequence of items is kept. *)
Theorem merge_spec (d : dal) (p b a : Node) (k : Z) (ca : pgnum) (sep : Item) :
  1 <= k <= len (items p) ->
  k < len (childNodes p) ->
  childNodes p !! Z.to_nat (k - 1) = Some ca ->
  pages d !! ca = Some a ->
  items p !! Z.to_nat (k - 1) = Some sep ->
  pageNum a <> 0 -> pageNum p <> 0 -> pageNum a <> pageNum p ->
  exists (d' : dal) (a' p' : Node),
    merge d p b k = Ok (d', p') /\
    p' = mkNode (pageNum p)
           (take (Z.to_nat (k - 1)) (items p) ++ drop (Z.to_nat k) (items p))
           (take (Z.to_nat k) (childNodes p) ++ drop (Z.to_nat (k + 1)) (childNodes p)) /\
    a' = mkNode (pageNum a) (items a ++ sep :: items b)
           (if isLeaf a then childNodes a else childNodes a ++ childNodes b) /\
    pages d' !! pageNum a = Some a' /\
    pages d' !! pageNum p = Some p' /\
    fl d' = releasePage (fl d) (pageNum b) /\
    take (Z.to_nat (k - 1)) (items p) ++ sep :: drop (Z.to_nat k) (items p) = items p.
Proof.
  intros Hk Hkc Hca Ha Hsep Hpa Hpp Hne.
  assert (H0 : 0 <= k - 1) by lia.
  unfold merge.
  rewrite (index_Ok _ _ _ H0 Hca), bind_Ok.
  unfold getNode, dal_getNode. rewrite Ha, bind_Ok.
  rewrite (index_Ok _ _ _ H0 Hsep), bind_Ok.
  rewrite slice_to_Ok by lia. rewrite bind_Ok.
  rewrite slice_from_Ok by lia. rewrite bind_Ok. cbv zeta.
  cbn [childNodes set_items items].
  rewrite slice_to_Ok by lia. rewrite bind_Ok.
  rewrite slice_from_Ok by lia. rewrite bind_Ok. cbv zeta.
  unfold isLeaf, set_items, set_childNodes. cbn [childNodes items pageNum].
  unfold writeNodes, writeNode. cbn [fold_left].
  eexists _, _, _. split; [reflexivity|]. split; [reflexivity|].
  split; [reflexivity|].
  rewrite <- app_assoc. cbn [app].
  destruct (len (childNodes a) =? 0); cbn [negb];
    rewrite !dal_writeNode_nonzero by (cbn [pageNum]; assumption);
    cbn [fst pages fl dal_deleteNode pageNum];
    (split; [rewrite lookup_insert_ne by congruence; apply lookup_insert_eq|]);
    (split; [apply lookup_insert_eq|]);
    (split; [reflexivity|]);
    replace (Z.to_nat k) with (S (Z.to_nat (k - 1))) by lia;
    rewrite <- (drop_S _ _ _ Hsep); apply take_drop.
Qed.

(** X10 on the sample tree: the leaf on page 6 is merged into the leaf
    on page 5 below the node on page 3. *)
Lemma merge_spec_witness :
  exists (d' : dal) (a' p' : Node),
    merge sample_dal sample_left (mkNode 6 [item1 "2"%byte] []) 1 = Ok (d', p') /\
    p' = mkNode 3 [item1 "3"%byte] [5; 7] /\
    a' = mkNode 5 [item1 "0"%byte; item1 "1"%byte; item1 "2"%byte] [] /\
    pages d' !! 5 = Some a' /\
    pages d' !! 3 = Some p' /\
    fl d' = releasePage (fl sample_dal) 6 /\
    [] ++ item1 "1"%byte :: [item1 "3"%byte] = items sample_left.
Proof.
  apply (merge_spec sample_dal sample_left (mkNode 6 [item1 "2"%byte] [])
           (mkNode 5 [item1 "0"%byte] []) 1 5 (item1 "1"%byte)).
  - unfold len. simpl. lia.
  - unfold len. simpl. lia.
  - reflexivity.
  - reflexivity.
  - reflexivity.
  - discriminate.
  - discriminate.
  - discriminate.
Defined.

Lemma split_runs (g : Node -> Z) (d : dal) (n child : Node)
    (childIndex s : Z) (middle : Item) :
  g child = s ->
  0 <= s ->
  items child !! Z.to_nat s = Some middle ->
  (isLeaf child = false -> s + 1 <= len (childNodes child)) ->
  0 <= childIndex <= len (items n) ->
  childIndex + 1 <= len (childNodes n) ->
  exists (d' : dal) (newNode : Node),
    split g d n child childIndex
    = Ok (d',
          mkNode (pageNum n)
                 (take (Z.to_nat childIndex) (items n)
                    ++ middle :: drop (Z.to_nat childIndex) (items n))
                 (take (Z.to_nat (childIndex + 1)) (childNodes n)
                    ++ pageNum newNode :: drop (Z.to_nat (childIndex + 1)) (childNodes n)),
          mkNode (pageNum child)
                 (take (Z.to_nat s) (items child))
                 (take (Z.to_nat (s + 1)) (childNodes child)),
          newNode) /\
    items newNode = drop (Z.to_nat (s + 1)) (items child) /\
    childNodes newNode = drop (Z.to_nat (s + 1)) (childNodes child).
Proof.
  intros Hs H0 Hmid Hcs Hci Hcc.
  apply lookup_lt_Some in Hmid as Hlt.
  unfold split. rewrite Hs.
  rewrite (index_Ok _ _ _ H0 Hmid), bind_Ok.
  rewrite slice_from_Ok by (unfold len; lia).
  destruct (isLeaf child) eqn:Hleaf.
  - apply isLeaf_nil in Hleaf as Hnil. rewrite bind_Ok.
    destruct (dal_newNode d (drop (Z.to_nat (s + 1)) (items child)) [])
      as [d1 n1] eqn:E1.
    destruct (writeNode d1 n1) as [d2 n2] eqn:E2.
    apply dal_newNode_node in E1 as [Hi1 Hc1].
    apply writeNode_node in E2 as [Hi2 Hc2].
    rewrite slice_to_Ok by (unfold len; lia). simpl.
    rewrite addItem_inserts by exact Hci. simpl.
    rewrite insert_child_after by (try lia; exact Hcc).
    simpl. eexists _, n2. split; [|split].
    + unfold set_items, set_childNodes. simpl. rewrite Hnil. simpl.
      rewrite take_nil. reflexivity.
    + congruence.
    + rewrite Hnil, drop_nil. congruence.
  - specialize (Hcs eq_refl). rewrite bind_Ok.
    rewrite slice_from_Ok by (unfold len in *; lia). simpl.
    destruct (dal_newNode d (drop (Z.to_nat (s + 1)) (items child))
                (drop (Z.to_nat (s + 1)) (childNodes child)))
      as [d1 n1] eqn:E1.
    destruct (writeNode d1 n1) as [d2 n2] eqn:E2.
    apply dal_newNode_node in E1 as [Hi1 Hc1].
    apply writeNode_node in E2 as [Hi2 Hc2].
    rewrite (slice_to_Ok (items child)) by (unfold len; lia). simpl.
    rewrite (slice_to_Ok (childNodes child)) by (unfold len in *; lia). simpl.
    rewrite addItem_inserts by exact Hci. simpl.
    rewrite insert_child_after by (try lia; exact Hcc).
    simpl. eexists _, n2. split; [|split].
    + reflexivity.
    + congruence.
    + congruence.
Qed.

(** X11. [split] loses nothing and keeps the shape of the nodes: the
    truncated child's items, the middle item and the new node's items
    are the child's items in order, the two halves share the child's
    pointers in order, the parent gains one item and one child pointer,
    and when the child had one more child pointer than items, so have
    both halves. *)
Theorem split_conserves (g : Node -> Z) (d : dal) (n child : Node)
    (childIndex s : Z) (middle : Item) :
  g child = s ->
  0 <= s ->
  items child !! Z.to_nat s = Some middle ->
  (isLeaf child = false -> len (childNodes child) = len (items child) + 1) ->
  0 <= childIndex <= len (items n) ->
  childIndex + 1 <= len (childNodes n) ->
  exists (d' : dal) (n' child' newNode : Node),
    split g d n child childIndex = Ok (d', n', child', newNode) /\
    items child' ++ middle :: items newNode = items child /\
    childNodes child' ++ childNodes newNode = childNodes child /\
    len (items n') = len (items n) + 1 /\
    len (childNodes n') = len (childNodes n) + 1 /\
    isLeaf child' = isLeaf child /\ isLeaf newNode = isLeaf child /\
    (isLeaf child = false ->
     len (childNodes child') = len (items child') + 1 /\
     len (childNodes newNode) = len (items newNode) + 1).
Proof.
  intros Hs H0 Hmid Hshape Hci Hcc.
  apply lookup_lt_Some in Hmid as Hlt.
  assert (Hcs : isLeaf child = false -> s + 1 <= len (childNodes child)).
  { intros Hnl. rewrite (Hshape Hnl). unfold len. lia. }
  destruct (split_runs g d n child childIndex s middle Hs H0 Hmid Hcs Hci Hcc)
    as (d' & nn & Hrun & Hin & Hcn).
  eexists d', _, _, nn. split; [exact Hrun|].
  cbn [items childNodes]. rewrite Hin, Hcn.
  replace (Z.to_nat (s + 1)) with (S (Z.to_nat s)) by lia.
  split; [rewrite <- (drop_S _ _ _ Hmid); apply take_drop|].
  split; [apply take_drop|].
  unfold len in *.
  split; [rewrite length_app, length_take; simpl length; rewrite length_drop; lia|].
  split; [rewrite length_app, length_take; simpl length; rewrite length_drop; lia|].
  destruct (isLeaf child) eqn:Hleaf.
  - apply isLeaf_nil in Hleaf. unfold isLeaf. cbn [childNodes].
    rewrite Hcn, Hleaf, take_nil, drop_nil.
    split; [reflexivity|]. split; [reflexivity|]. discriminate.
  - specialize (Hshape eq_refl).
    unfold isLeaf, len. cbn [childNodes]. rewrite Hcn.
    replace (Z.to_nat (s + 1)) with (S (Z.to_nat s)) by lia.
    rewrite !length_take, !length_drop.
    split; [apply Z.eqb_neq; lia|]. split; [apply Z.eqb_neq; lia|].
    intros _. lia.
Qed.

(** X11 on a leaf with three items below the sample node on page 3. *)
Lemma split_conserves_witness :
  exists (d' : dal) (n' child' newNode : Node),
    split (getSplitIndex_model 20) sample_dal sample_left sample_full_leaf 1
    = Ok (d', n', child', newNode) /\
    items child' ++ item1 "b"%byte :: items newNode = items sample_full_leaf /\
    childNodes child' ++ childNodes newNode = childNodes sample_full_leaf /\
    len (items n') = len (items sample_left) + 1 /\
    len (childNodes n') = len (childNodes sample_left) + 1 /\
    isLeaf child' = isLeaf sample_full_leaf /\
    isLeaf newNode = isLeaf sample_full_leaf /\
    (isLeaf sample_full_leaf = false ->
     len (childNodes child') = len (items child') + 1 /\
     len (childNodes newNode) = len (items newNode) + 1).
Proof.
  apply (split_conserves (getSplitIndex_model 20) sample_dal sample_left
           sample_full_leaf 1 1 (item1 "b"%byte)).
  - reflexivity.
  - lia.
  - reflexivity.
  - discriminate.
  - unfold len; simpl; lia.
  - unfold len; simpl; lia.
Defined.

(** ** Removal from an internal node, where the descent is right *)

Lemma goRight_last_child (d : dal) (n : Node) (fuel : nat) :
  forall (l : Node) (aff : list Z) (leaf : Node),
  rightmost_arity fuel d (len (childNodes n)) l ->
  last_child_leaf fuel d l = Some (Ok leaf) ->
  exists aff' : list Z, goRight fuel d n l aff = Some (Ok (leaf, aff ++ aff')).
Proof.
  induction fuel as [|fuel IH]; intros l aff leaf Har Hlast; simpl in *.
  - destruct (isLeaf l); [|discriminate].
    injection Hlast as ->. exists []. now rewrite app_nil_r.
  - destruct (isLeaf l).
    + injection Hlast as ->. exists []. now rewrite app_nil_r.
    + destruct Har as [Hk Har]. rewrite Hk in Hlast.
      unfold getNode.
      destruct (index (childNodes l) (len (childNodes n) - 1) ≫= dal_getNode d)
        as [l'| |] eqn:E; try discriminate.
      destruct (IH l' (aff ++ [len (childNodes n) - 1]) leaf Har Hlast) as [aff' H].
      exists ((len (childNodes n) - 1) :: aff').
      rewrite H. now rewrite <- app_assoc.
Qed.

(** X12. When every non-leaf node on the way down from the child at
    [index] has as many children as [n] has (in particular when that
    child is a leaf), [removeItemFromInternal] does take the in-order
    predecessor: it overwrites [n.items[index]] with the last item of
    the leaf that the last-child descent reaches, truncates that leaf by
    one item, writes both nodes, and its affected path starts with
    [index]. *)
Theorem removeItemFromInternal_uniform (fuel : nat) (d : dal) (n : Node) (idx : Z)
    (c : pgnum) (child leaf : Node) (x : Item) :
  0 <= idx < len (items n) ->
  childNodes n !! Z.to_nat idx = Some c ->
  pages d !! c = Some child ->
  rightmost_arity fuel d (len (childNodes n)) child ->
  predecessor_leaf fuel d n idx = Some (Ok leaf) ->
  last (items leaf) = Some x ->
  exists aff : list Z,
    removeItemFromInternal fuel d n idx
    = Some (Ok (writeNodes d [set_items n (<[Z.to_nat idx := x]> (items n));
                              set_items leaf (take (length (items leaf) - 1) (items leaf))],
                set_items n (<[Z.to_nat idx := x]> (items n)),
                idx :: aff)).
Proof.
  intros Hidx Hc Hchild Har Hpred Hx.
  assert (H0 : 0 <= idx) by lia.
  assert (Hread : (c0 ← index (childNodes n) idx; dal_getNode d c0) = Ok child).
  { rewrite (index_Ok _ _ _ H0 Hc), bind_Ok. unfold dal_getNode. now rewrite Hchild. }
  unfold predecessor_leaf in Hpred. rewrite Hread in Hpred.
  unfold removeItemFromInternal, getNode. rewrite Hread.
  destruct (goRight_last_child d n fuel child ([] ++ [idx]) leaf Har Hpred) as [aff Hgo].
  rewrite Hgo. exists aff. do 2 f_equal.
  rewrite bind_Ok. cbv beta iota.
  rewrite (index_last _ _ Hx), bind_Ok.
  rewrite assign_Ok by lia. rewrite bind_Ok. cbv zeta.
  assert (Hne : items leaf <> []) by (intros E; rewrite E in Hx; discriminate).
  rewrite (slice_to_last _ Hne), bind_Ok. reflexivity.
Qed.

(** X12 on the node of page 3 of the sample tree, whose children are
    leaves. *)
Lemma removeItemFromInternal_uniform_witness :
  exists aff : list Z,
    removeItemFromInternal 5 sample_dal sample_left 1
    = Some (Ok (writeNodes sample_dal
                  [set_items sample_left (<[Z.to_nat 1 := item1 "2"%byte]> (items sample_left));
                   set_items (mkNode 6 [item1 "2"%byte] []) []],
                set_items sample_left (<[Z.to_nat 1 := item1 "2"%byte]> (items sample_left)),
                1 :: aff)).
Proof.
  apply (removeItemFromInternal_uniform 5 sample_dal sample_left 1 6
           (mkNode 6 [item1 "2"%byte] []) (mkNode 6 [item1 "2"%byte] [])
           (item1 "2"%byte)).
  - unfold len. simpl. lia.
  - reflexivity.
  - reflexivity.
  - exact I.
  - reflexivity.
  - reflexivity.
Defined.

(** ** Serialization: what holds for every buffer *)

Lemma write_in_place (buf : list byte) (pos : Z) (bs : list byte) (r : list byte)
    (ok : bool) :
  (if ok then Ok (write_at buf pos bs) else Panic) = Ok r ->
  (ok = true -> (Z.to_nat pos + length bs <= length buf)%nat) ->
  length r = length buf.
Proof.
  destruct ok; [|discriminate]. intros [= <-] H.
  apply length_write_at. auto.
Qed.

Lemma put_byte_length (buf : list byte) (pos : Z) (b : byte) (r : list byte) :
  put_byte buf pos b = Ok r -> length r = length buf.
Proof.
  unfold put_byte. intros H. eapply write_in_place; [exact H|].
  intros E. apply andb_true_iff in E as [E0 E1].
  apply Z.leb_le in E0. apply Z.ltb_lt in E1. simpl. lia.
Qed.

Lemma put_uint_length (w : nat) (buf : list byte) (pos v : Z) (r : list byte) :
  put_uint w buf pos v = Ok r -> length r = length buf.
Proof.
  unfold put_uint. intros H. eapply write_in_place; [exact H|].
  intros E. apply andb_true_iff in E as [E0 E1].
  apply Z.leb_le in E0, E1. rewrite length_le_bytes. lia.
Qed.

Lemma copy_at_length (buf : list byte) (pos : Z) (src : list byte) (r : list byte) :
  copy_at buf pos src = Ok r -> length r = length buf.
Proof.
  unfold copy_at. intros H. eapply write_in_place; [exact H|].
  intros E. apply andb_true_iff in E as [E0 E1].
  apply Z.leb_le in E0, E1. rewrite length_take. lia.
Qed.

Lemma serialize_child_length (n : Node) (leaf : bool) (i : Z) (buf : list byte)
    (l : Z) (b1 : list byte) (l1 : Z) :
  (if negb leaf then
     childNode ← index (childNodes n) i;
     buf0 ← PutUint64 buf l (uint64 childNode);
     Ok (buf0, l + pageNumSize)
   else Ok (buf, l)) = Ok (b1, l1) -> length b1 = length buf.
Proof.
  intros H1. destruct leaf; cbn [negb] in H1.
  - now injection H1 as <- _.
  - bind_inv H1. bind_inv H1. injection H1 as <- _.
    eapply put_uint_length. eassumption.
Qed.

Lemma serialize_item_length (n : Node) (leaf : bool) (i : Z) (buf : list byte)
    (l r : Z) (buf' : list byte) (l' r' : Z) :
  serialize_item n leaf i (buf, l, r) = Ok (buf', l', r') ->
  length buf' = length buf.
Proof.
  unfold serialize_item. intros H.
  bind_inv H.
  bind_inv H. destruct a0 as [b1 l1]. apply serialize_child_length in E0.
  cbv beta iota zeta in H.
  bind_inv H. apply put_uint_length in E1.
  bind_inv H. apply copy_at_length in E2.
  bind_inv H. apply put_byte_length in E3.
  bind_inv H. apply copy_at_length in E4.
  bind_inv H. apply put_byte_length in E5.
  injection H as <- _ _. congruence.
Qed.

Lemma serialize_loop_length (n : Node) (leaf : bool) (k : nat) :
  forall (i : Z) (buf : list byte) (l r : Z) (buf' : list byte) (l' r' : Z),
  serialize_loop n leaf i k (buf, l, r) = Ok (buf', l', r') ->
  length buf' = length buf.
Proof.
  induction k as [|k IH]; intros i buf l r buf' l' r' H; simpl in H.
  - now injection H as <- _ _.
  - bind_inv H. destruct a as [[b1 l1] r1].
    apply serialize_item_length in E. apply IH in H. congruence.
Qed.

Lemma put_byte_no_err (s : list byte) (p : Z) (b : byte) (e : error) :
  put_byte s p b <> Err e.
Proof. unfold put_byte. destruct (_ && _); discriminate. Qed.

Lemma put_uint_no_err (w : nat) (s : list byte) (p v : Z) (e : error) :
  put_uint w s p v <> Err e.
Proof. unfold put_uint. destruct (_ && _); discriminate. Qed.

Lemma copy_at_no_err (s : list byte) (p : Z) (src : list byte) (e : error) :
  copy_at s p src <> Err e.
Proof. unfold copy_at. destruct (_ && _); discriminate. Qed.

Lemma index_no_err {A} (s : list A) (i : Z) (e : error) : index s i <> Err e.
Proof.
  unfold index. destruct (_ && _); [|discriminate].
  destruct (s !! Z.to_nat i); discriminate.
Qed.

Ltac no_err_step :=
  match goal with
  | |- (mbind _ ?m) <> _ =>
      let E := fresh "E" in
      destruct m eqn:E;
      [rewrite bind_Ok
      |exfalso;
       first [eapply put_uint_no_err; eassumption
             |eapply copy_at_no_err; eassumption
             |eapply put_byte_no_err; eassumption
             |eapply index_no_err; eassumption]
      |discriminate]
  end.

Lemma serialize_child_no_err (n : Node) (leaf : bool) (i : Z) (buf : list byte)
    (l : Z) (e : error) :
  (if negb leaf then
     childNode ← index (childNodes n) i;
     buf0 ← put_uint 8 buf l (uint64 childNode);
     Ok (buf0, l + pageNumSize)
   else Ok (buf, l)) <> Err e.
Proof.
  destruct leaf; cbn [negb]; [discriminate|].
  no_err_step. no_err_step. discriminate.
Qed.

Lemma serialize_item_no_err (n : Node) (leaf : bool) (i : Z)
    (st : list byte * Z * Z) (e : error) :
  serialize_item n leaf i st <> Err e.
Proof.
  destruct st as [[b l] r]. unfold serialize_item, PutUint64, PutUint16.
  no_err_step.
  match goal with
  | |- (mbind _ ?m) <> _ =>
      destruct m as [[b1 l1]| |] eqn:E1;
      [rewrite bind_Ok|exfalso; eapply serialize_child_no_err; eauto|discriminate]
  end.
  cbv beta iota zeta. repeat no_err_step. discriminate.
Qed.

Lemma serialize_loop_no_err (n : Node) (leaf : bool) (k : nat) :
  forall (i : Z) (st : list byte * Z * Z) (e : error),
  serialize_loop n leaf i k st <> Err e.
Proof.
  induction k as [|k IH]; intros i st e; simpl; [discriminate|].
  destruct (serialize_item n leaf i st) as [st'| |] eqn:E1;
    [rewrite bind_Ok; apply IH|exfalso; eapply serialize_item_no_err; eauto|discriminate].
Qed.

(** X13. [serialize] writes in place: it never returns an error, and
    when it does not panic the buffer it returns is as long as the one
    it was given; on a buffer shorter than the three header bytes it
    panics. *)
Theorem serialize_in_place (n : Node) (buf : list byte) :
  (serialize n buf = Panic \/
   exists buf' : list byte, serialize n buf = Ok buf' /\ length buf' = length buf) /\
  (len buf < 3 -> serialize n buf = Panic).
Proof.
  split.
  - destruct (serialize n buf) as [buf'|e|] eqn:H; [right|exfalso|left; reflexivity].
    + exists buf'. split; [reflexivity|].
      unfold serialize in H. bind_inv H. apply put_byte_length in E.
      bind_inv H. apply put_uint_length in E0.
      bind_inv H. destruct a1 as [[b1 l1] r1].
      apply serialize_loop_length in E1.
      destruct (negb (isLeaf n)).
      * bind_inv H. apply put_uint_length in H. congruence.
      * injection H as <-. congruence.
    + enough (Hne : serialize n buf <> Err e) by exact (Hne H).
      clear H. unfold serialize, PutUint16, PutUint64.
      no_err_step. no_err_step.
      destruct (serialize_loop n _ _ _ _) as [[[b2 l2] r2]| |] eqn:E2;
        [rewrite bind_Ok|exfalso; eapply serialize_loop_no_err; eauto|discriminate].
      destruct (negb (isLeaf n)); [|discriminate].
      no_err_step. apply put_uint_no_err.
  - intros Hlen. unfold serialize, put_byte.
    destruct ((0 <=? 0) && (0 <? Z.of_nat (length buf))) eqn:E0; [|reflexivity].
    rewrite bind_Ok. unfold PutUint16, put_uint.
    replace (0 + 1 + Z.of_nat 2 <=? Z.of_nat (length (write_at buf 0 [byte_of_Z (if isLeaf n then 1 else 0)])))
      with false; [rewrite andb_false_r; reflexivity|].
    symmetry. apply Z.leb_gt.
    apply andb_true_iff in E0 as [_ E0]. apply Z.ltb_lt in E0.
    rewrite length_write_at by (simpl; lia). unfold len in Hlen. lia.
Qed.

(** X13 on an empty buffer. *)
Lemma serialize_in_place_witness : serialize node_one_item [] = Panic.
Proof.
  apply (proj2 (serialize_in_place node_one_item [])).
  unfold len. simpl. lia.
Defined.

Lemma prepend_assoc (n0 m : Node) (its : list Item) (cs : list pgnum) :
  mkNode (pageNum (prepend n0 m)) (items (prepend n0 m) ++ its)
         (childNodes (prepend n0 m) ++ cs)
  = prepend n0 (mkNode (pageNum m) (items m ++ its) (childNodes m ++ cs)).
Proof. unfold prepend. simpl. now rewrite <- !app_assoc. Qed.

Lemma deserialize_item_prepend (buf : list byte) (f l : Z) (n0 m : Node) :
  deserialize_item buf f (l, prepend n0 m)
  = '(l', m') ← deserialize_item buf f (l, m); Ok (l', prepend n0 m').
Proof.
  unfold deserialize_item.
  destruct (f =? 0).
  - destruct (Uint64 buf l) as [pn| |]; simpl; try reflexivity.
    destruct (Uint16 buf (l + pageNumSize)) as [off| |]; simpl; try reflexivity.
    destruct (index buf off) as [kb| |]; simpl; try reflexivity.
    destruct (slice buf _ _) as [k| |]; simpl; try reflexivity.
    destruct (index buf _) as [vb| |]; simpl; try reflexivity.
    destruct (slice buf _ _) as [v| |]; simpl; try reflexivity.
    unfold prepend. simpl. now rewrite <- !app_assoc.
  - simpl.
    destruct (Uint16 buf l) as [off| |]; simpl; try reflexivity.
    destruct (index buf off) as [kb| |]; simpl; try reflexivity.
    destruct (slice buf _ _) as [k| |]; simpl; try reflexivity.
    destruct (index buf _) as [vb| |]; simpl; try reflexivity.
    destruct (slice buf _ _) as [v| |]; simpl; try reflexivity.
    unfold prepend. simpl. now rewrite <- !app_assoc.
Qed.

Lemma deserialize_loop_prepend (buf : list byte) (f : Z) (n0 : Node) (k : nat) :
  forall (l : Z) (m : Node),
  deserialize_loop buf f k (l, prepend n0 m)
  = '(l', m') ← deserialize_loop buf f k (l, m); Ok (l', prepend n0 m').
Proof.
  induction k as [|k IH]; intros l m; cbn [deserialize_loop]; [reflexivity|].
  rewrite deserialize_item_prepend.
  destruct (deserialize_item buf f (l, m)) as [[l1 m1]| |];
    rewrite ?bind_Ok; try reflexivity.
  apply IH.
Qed.

(** X14. [deserialize] appends to its receiver: on a node that already
    has items or child pointers it yields those followed by what it
    reads from the buffer, keeps the receiver's page number, and panics
    exactly when it panics on an empty node. *)
Theorem deserialize_appends (n : Node) (buf : list byte) :
  deserialize n buf = m ← deserialize NewEmptyNode buf; Ok (prepend n m).
Proof.
  assert (Hn : n = prepend n NewEmptyNode).
  { unfold prepend. simpl. rewrite !app_nil_r. now destruct n. }
  rewrite Hn at 1. unfold deserialize.
  destruct (index buf 0) as [b| |]; simpl; try reflexivity.
  destruct (slice buf 1 3) as [hdr| |]; simpl; try reflexivity.
  destruct (Uint16 hdr 0) as [cnt| |]; simpl; try reflexivity.
  rewrite deserialize_loop_prepend.
  destruct (deserialize_loop buf (byte_to_Z b) (Z.to_nat cnt) (0 + 3, NewEmptyNode))
    as [[l1 m1]| |]; simpl; try reflexivity.
  destruct (byte_to_Z b =? 0); [|reflexivity].
  destruct (Uint64 buf l1) as [pn| |]; simpl; try reflexivity.
  unfold prepend. simpl. now rewrite <- app_assoc.
Qed.

(** ** Search through the tree *)

(** What [findKeyHelper] returns, where it stopped and how it got
    there. *)
Lemma findKeyHelper_stops (d : dal) (k : list byte) (exact : bool) (fuel : nat) :
  forall (node : Node) (anc : list Z) (i : Z) (on : option Node) (path : list Z),
  findKeyHelper fuel d node k exact anc = Some (Ok (i, on, path)) ->
  exists (rest : list Z) (reached : Node) (found : bool) (j : Z),
    path = anc ++ rest /\
    walk d node rest = Ok reached /\
    findKeyInNode reached k = (found, j) /\
    (found = true \/ isLeaf reached = true) /\
    match on with
    | Some m => m = reached /\ i = j /\ (found = true \/ exact = false)
    | None => found = false /\ exact = true /\ i = -1
    end.
Proof.
  induction fuel as [|fuel IH]; intros node anc i on path; cbn [findKeyHelper];
    destruct (findKeyInNode node k) as [found j] eqn:Ef.
  - destruct found.
    + intros [= <- <- <-]. exists [], node, true, j.
      rewrite app_nil_r. repeat split; auto.
    + destruct (isLeaf node) eqn:El; [|discriminate].
      destruct exact.
      * intros [= <- <- <-]. exists [], node, false, j.
        rewrite app_nil_r. repeat split; auto.
      * intros [= <- <- <-]. exists [], node, false, j.
        rewrite app_nil_r. repeat split; auto.
  - destruct found.
    + intros [= <- <- <-]. exists [], node, true, j.
      rewrite app_nil_r. repeat split; auto.
    + destruct (isLeaf node) eqn:El.
      * destruct exact.
        -- intros [= <- <- <-]. exists [], node, false, j.
           rewrite app_nil_r. repeat split; auto.
        -- intros [= <- <- <-]. exists [], node, false, j.
           rewrite app_nil_r. repeat split; auto.
      * destruct (index (childNodes node) j) as [c| |] eqn:Ei; simpl; try discriminate.
        destruct (getNode d c) as [child| |] eqn:Eg; simpl; try discriminate.
        intros H. apply IH in H
          as (rest & reached & found & j' & -> & Hwalk & Hfind & Hstop & Hon).
        exists (j :: rest), reached, found, j'.
        rewrite <- app_assoc. split; [reflexivity|].
        split; [|auto]. simpl. rewrite Ei. simpl. rewrite Eg. exact Hwalk.
Qed.

(** X15. What [findKey] returns is right: with [exact] set, a returned
    node holds the key at the returned index, and a miss is reported as
    index -1 without a node; without [exact], a node is always returned,
    and either it holds the key at the index or it is a leaf and the
    index is the insertion position (every earlier key is smaller and
    the key at the index, if any, is larger). *)
Theorem findKey_sound (fuel : nat) (d : dal) (root : Node) (k : list byte)
    (exact : bool) (i : Z) (on : option Node) (path : list Z) :
  findKey fuel d root k exact = Some (Ok (i, on, path)) ->
  match on with
  | Some m =>
      0 <= i <= len (items m) /\
      ((exists it, items m !! Z.to_nat i = Some it /\ key it = k) \/
       (exact = false /\ isLeaf m = true /\
        (forall (j : nat) (it : Item),
           Z.of_nat j < i -> items m !! j = Some it -> Compare (key it) k = -1) /\
        (i = len (items m) \/
         exists it, items m !! Z.to_nat i = Some it /\ Compare (key it) k = 1)))
  | None => exact = true /\ i = -1
  end.
Proof.
  unfold findKey. intros H.
  apply findKeyHelper_stops in H
    as (rest & reached & found & j & _ & _ & Hfind & Hstop & Hon).
  destruct on as [m|].
  - destruct Hon as (-> & -> & Hcase).
    unfold findKeyInNode in Hfind.
    apply findKeyInNode_loop_stops in Hfind as (Hr & Hbefore & Hfound & Hmiss).
    rewrite Z.sub_0_r, Z.add_0_l in *. split; [lia|].
    destruct found.
    + left. now apply Hfound.
    + right. destruct Hcase as [?|He]; [discriminate|].
      destruct Hstop as [?|Hl]; [discriminate|]. auto.
  - destruct Hon as (_ & ? & ?). auto.
Qed.

(** X15 on the sample tree and the key 4. *)
Lemma findKey_sound_witness :
  0 <= 0 <= len (items (mkNode 7 [item1 "4"%byte] [])) /\
  ((exists it, items (mkNode 7 [item1 "4"%byte] []) !! Z.to_nat 0 = Some it /\
               key it = ["4"%byte]) \/
   (true = false /\ isLeaf (mkNode 7 [item1 "4"%byte] []) = true /\
    (forall (j : nat) (it : Item),
       Z.of_nat j < 0 -> items (mkNode 7 [item1 "4"%byte] []) !! j = Some it ->
       Compare (key it) ["4"%byte] = -1) /\
    (0 = len (items (mkNode 7 [item1 "4"%byte] [])) \/
     exists it, items (mkNode 7 [item1 "4"%byte] []) !! Z.to_nat 0 = Some it /\
                Compare (key it) ["4"%byte] = 1))).
Proof.
  apply (findKey_sound 5 sample_dal sample_root ["4"%byte] true 0
           (Some (mkNode 7 [item1 "4"%byte] [])) [0; 0; 2]).
  reflexivity.
Defined.

(** X16. The ancestor indexes [findKey] returns start with 0 for the
    root, and following the remaining indexes from the root through the
    store leads to the node it returns; when it reports a miss they lead
    to a leaf. *)
Theorem findKey_path (fuel : nat) (d : dal) (root : Node) (k : list byte)
    (exact : bool) (i : Z) (on : option Node) (path : list Z) :
  findKey fuel d root k exact = Some (Ok (i, on, path)) ->
  exists (rest : list Z) (reached : Node),
    path = 0 :: rest /\
    walk d root rest = Ok reached /\
    match on with
    | Some m => m = reached
    | None => isLeaf reached = true
    end.
Proof.
  unfold findKey. intros H.
  apply findKeyHelper_stops in H
    as (rest & reached & found & j & -> & Hwalk & _ & Hstop & Hon).
  exists rest, reached. split; [reflexivity|]. split; [exact Hwalk|].
  destruct on as [m|].
  - now destruct Hon.
  - destruct Hon as (-> & _ & _). destruct Hstop; [discriminate|assumption].
Qed.

(** X16 on the sample tree and the key 4. *)
Lemma findKey_path_witness :
  exists (rest : list Z) (reached : Node),
    [0; 0; 2] = 0 :: rest /\
    walk sample_dal sample_root rest = Ok reached /\
    mkNode 7 [item1 "4"%byte] [] = reached.
Proof.
  apply (findKey_path 5 sample_dal sample_root ["4"%byte] true 0
           (Some (mkNode 7 [item1 "4"%byte] [])) [0; 0; 2]).
  reflexivity.
Defined.

(** X17. [findKey] returns on every tree of bounded depth: with fuel for
    at least as many levels as the tree has below the root, the search
    ends (in a result, an error or a panic). *)
Theorem findKey_returns (fuel h : nat) (d : dal) (root : Node) (k : list byte)
    (exact : bool) :
  depth_le h d root -> (h <= fuel)%nat ->
  exists r, findKey fuel d root k exact = Some r.
Proof.
  unfold findKey. generalize [0]. revert h root.
  induction fuel as [|fuel IH]; intros h node anc Hd Hh; cbn [findKeyHelper];
    destruct (findKeyInNode node k) as [found j]; destruct found; eauto;
    destruct (isLeaf node) eqn:El; try (destruct exact; eauto; fail).
  - destruct h; [|lia]. destruct Hd as [Hd|[]]. congruence.
  - destruct (index (childNodes node) j) as [c| |] eqn:Ei; simpl; eauto.
    unfold getNode, dal_getNode.
    destruct (pages d !! c) as [child|] eqn:Ec; simpl; eauto.
    destruct h as [|h]; simpl in Hd; destruct Hd as [Hd|Hd];
      try congruence; try contradiction.
    apply (IH h); [|lia].
    apply (Hd c child); [|exact Ec].
    apply index_inv in Ei as [_ Ei]. eapply list_elem_of_lookup_2. exact Ei.
Qed.

(** X17 on the sample tree, which has two levels below the root. *)
Lemma findKey_returns_witness :
  exists r, findKey 2 sample_dal sample_root ["4"%byte] true = Some r.
Proof.
  apply (findKey_returns 2 2 sample_dal sample_root ["4"%byte] true).
  - right. intros c child Hc Hp.
    assert (Hcases : c = 3 \/ c = 4).
    { apply list_elem_of_In in Hc. simpl in Hc. intuition. }
    right. intros c' child' Hc' Hp'. left.
    destruct Hcases as [-> | ->]; vm_compute in Hp; injection Hp as <-;
      apply list_elem_of_In in Hc'; simpl in Hc';
      repeat (destruct Hc' as [<-|Hc']; [vm_compute in Hp'; injection Hp' as <-; reflexivity|]);
      destruct Hc'.
  - lia.
Defined.

(** ** Transactions: buffered writes *)




(** ** Commit with writes that succeed *)





